(** * Sraffa engine: the numeric core of [src/utils/math.ts] and [src/App.tsx]

    The TypeScript functions are embedded as Rocq functions over an abstract
    interface of JavaScript numbers ([Number]).  Two instances are given:

    - [Binary64]: IEEE 754 binary64, the arithmetic the program really runs on
      (Rocq's primitive floats), used to evaluate the code on concrete inputs;
    - [Rational]: exact rational arithmetic ([Qc]), the idealised reading in
      which no operation rounds, overflows or yields NaN.

    Structural statements are proved for every instance, hence for binary64.
    Statements that need algebra are proved for every exact instance
    ([Exact]). *)

From Stdlib Require Import List Arith Lia Bool ZArith.
From Stdlib Require String DecimalString.
From Stdlib Require Import QArith Qcanon Qcabs Field.
From Stdlib Require Import Floats.
Import ListNotations.

Close Scope Qc_scope.
Close Scope Q_scope.

Set Implicit Arguments.

(** ** JavaScript numbers *)

(** The operations on [number] that the program uses.  [eqb] is [===],
    [ltb] is [<], [leb] is [<=]; [truthy] is the coercion to boolean behind
    [p || 0]; [undefined] is what an absent array element turns into once it
    reaches arithmetic (NaN); [sqr] is [x ** 2], which the language leaves
    implementation-approximated and the instances below take as [x * x]; the
    [lit_] fields are the literals of the source. *)
Class Number (F : Type) : Type := {
  zero : F;
  one : F;
  add : F -> F -> F;
  sub : F -> F -> F;
  mul : F -> F -> F;
  div : F -> F -> F;
  neg : F -> F;
  abs : F -> F;
  sqr : F -> F;
  ltb : F -> F -> bool;
  leb : F -> F -> bool;
  eqb : F -> F -> bool;
  truthy : F -> bool;
  of_nat : nat -> F;
  undefined : F;
  lit_1e_10 : F;
  lit_1e_12 : F;
  lit_1e_9 : F;
  lit_1e_6 : F;
  lit_100 : F
}.

(** [Math.sqrt], kept apart: the rationals have none. *)
Class MathSqrt (F : Type) : Type := { sqrt : F -> F }.

Declare Scope num_scope.
Delimit Scope num_scope with num.
Notation "0" := zero : num_scope.
Notation "1" := one : num_scope.
Notation "x + y" := (add x y) : num_scope.
Notation "x - y" := (sub x y) : num_scope.
Notation "x * y" := (mul x y) : num_scope.
Notation "x / y" := (div x y) : num_scope.
Notation "- x" := (neg x) : num_scope.

(** [a > b] is evaluated by JavaScript as [b < a]. *)
Definition gtb {F : Type} {N : Number F} (a b : F) : bool := ltb b a.

(** *** IEEE 754 binary64 *)

Module Binary64.

(** Falsy numbers are [+0], [-0] and NaN. *)
Definition is_truthy (x : float) : bool :=
  negb (PrimFloat.eqb x 0%float) && PrimFloat.eqb x x.

Definition from_nat (n : nat) : float :=
  PrimFloat.of_uint63 (Uint63.of_Z (Z.of_nat n)).

#[global] Instance number : Number float := {|
  zero := 0%float;
  one := 1%float;
  add := PrimFloat.add;
  sub := PrimFloat.sub;
  mul := PrimFloat.mul;
  div := PrimFloat.div;
  neg := PrimFloat.opp;
  abs := PrimFloat.abs;
  sqr := fun x => PrimFloat.mul x x;
  ltb := PrimFloat.ltb;
  leb := PrimFloat.leb;
  eqb := PrimFloat.eqb;
  truthy := is_truthy;
  of_nat := from_nat;
  undefined := nan;
  lit_1e_10 := 0x1.b7cdfd9d7bdbbp-34%float;
  lit_1e_12 := 0x1.19799812dea11p-40%float;
  lit_1e_9 := 0x1.12e0be826d695p-30%float;
  lit_1e_6 := 0x1.0c6f7a0b5ed8dp-20%float;
  lit_100 := 100%float
|}.

#[global] Instance math_sqrt : MathSqrt float := {| sqrt := PrimFloat.sqrt |}.

(** [+0] or [-0]. *)
Definition is_zero (x : float) : Prop :=
  match Prim2SF x with
  | S754_zero _ => True
  | _ => False
  end.

(** Neither an infinity nor NaN. *)
Definition is_finite (x : float) : Prop :=
  match Prim2SF x with
  | S754_zero _ | S754_finite _ _ _ => True
  | _ => False
  end.

(** The exact rational value of a finite float. *)
Definition to_Q (x : float) : option Q :=
  match Prim2SF x with
  | S754_zero _ => Some 0%Q
  | S754_finite s m e =>
      let v := (inject_Z (Z.pos m) * Qpower 2 e)%Q in
      Some (Qred (if s then Qopp v else v))
  | _ => None
  end.

End Binary64.

(** *** Exact rationals *)

(** The rationals have no NaN: [undefined], which dimension-consistent inputs
    never read, is 0 here.  Division by 0 yields 0, and every division the
    exact statements rely on has a divisor they show to be non-zero. *)

Module Rational.

Definition lt_bool (x y : Qc) : bool :=
  match (x ?= y)%Qc with Lt => true | _ => false end.

Definition le_bool (x y : Qc) : bool :=
  match (x ?= y)%Qc with Gt => false | _ => true end.

Definition eq_bool (x y : Qc) : bool := Qeq_bool x y.

Definition from_nat (n : nat) : Qc := Q2Qc (inject_Z (Z.of_nat n)).

#[global] Instance number : Number Qc := {|
  zero := Q2Qc 0;
  one := Q2Qc 1;
  add := Qcplus;
  sub := Qcminus;
  mul := Qcmult;
  div := Qcdiv;
  neg := Qcopp;
  abs := Qcabs;
  sqr := fun x => Qcmult x x;
  ltb := lt_bool;
  leb := le_bool;
  eqb := eq_bool;
  truthy := fun x => negb (eq_bool x (Q2Qc 0));
  of_nat := from_nat;
  undefined := Q2Qc 0;
  lit_1e_10 := Q2Qc (1 # 10000000000);
  lit_1e_12 := Q2Qc (1 # 1000000000000);
  lit_1e_9 := Q2Qc (1 # 1000000000);
  lit_1e_6 := Q2Qc (1 # 1000000);
  lit_100 := Q2Qc 100
|}.

End Rational.

(** ** Arrays and loops *)

Section Arrays.

Context {F : Type} {N : Number F}.

(** [a[i]] on an array of numbers; an absent element is [undefined]. *)
Definition get (a : list F) (i : nat) : F := nth i a undefined.

(** [M[i]] on an array of rows.  Reading a row beyond the end yields
    [undefined] in JavaScript and the element access that follows throws;
    this does not happen on dimension-consistent inputs, which is what the
    statements below assume, and the model returns the empty row there. *)
Definition row (M : list (list F)) (i : nat) : list F := nth i M [].

Definition get2 (M : list (list F)) (i j : nat) : F := get (row M i) j.

End Arrays.

(** [a[i] = x] for [i] within the array (the program never writes beyond the
    end of an array it has allocated). *)
Fixpoint upd {A : Type} (a : list A) (i : nat) (x : A) : list A :=
  match a, i with
  | [], _ => []
  | _ :: t, O => x :: t
  | h :: t, S i' => h :: upd t i' x
  end.

(** [M[i][j] = x]. *)
Definition upd2 {A : Type} (M : list (list A)) (i j : nat) (x : A) : list (list A) :=
  upd M i (upd (nth i M []) j x).

(** [for (let k = lo; k < hi; k++) s = body(k, s)]. *)
Definition for_range {St : Type} (lo hi : nat) (body : nat -> St -> St) (s : St) : St :=
  fold_left (fun s k => body k s) (seq lo (hi - lo)) s.

(** [for (let i = n - 1; i >= 0; i--) s = body(i, s)]. *)
Fixpoint for_down {St : Type} (n : nat) (body : nat -> St -> St) (s : St) : St :=
  match n with
  | O => s
  | S m => for_down m body (body m s)
  end.

(** [a.map((val, i) => f(val, i))]. *)
Fixpoint map_indexed {A B : Type} (f : A -> nat -> B) (i : nat) (a : list A) : list B :=
  match a with
  | [] => []
  | x :: t => f x i :: map_indexed f (S i) t
  end.

(** ** [src/utils/math.ts] *)

Section MathTs.

Context {F : Type} {N : Number F}.

Definition matrix : Type := list (list F).

(** *** [solveLinearSystem] *)

(** Lines 14-19: the row of largest magnitude in column [i], from row [i] down. *)
Definition select_pivot (n : nat) (aug : matrix) (i : nat) : nat :=
  for_range (S i) n
    (fun k maxRow =>
       if gtb (abs (get2 aug k i)) (abs (get2 aug maxRow i)) then k else maxRow)
    i.

(** Line 22: [[aug[i], aug[maxRow]] = [aug[maxRow], aug[i]]]. *)
Definition swap_rows (aug : matrix) (i maxRow : nat) : matrix :=
  upd (upd aug i (row aug maxRow)) maxRow (row aug i).

(** Lines 29-32, for one row [k]. *)
Definition eliminate_row (n : nat) (i k : nat) (aug : matrix) : matrix :=
  let factor := (get2 aug k i / get2 aug i i)%num in
  for_range i (S n)
    (fun j aug => upd2 aug k j (get2 aug k j - factor * get2 aug i j)%num)
    aug.

(** Lines 28-33. *)
Definition eliminate (n : nat) (i : nat) (aug : matrix) : matrix :=
  for_range (S i) n (eliminate_row n i) aug.

(** The pivot of step [i]: the diagonal entry once the selected row is
    swapped in. *)
Definition pivot (n : nat) (aug : matrix) (i : nat) : F :=
  get2 (swap_rows aug i (select_pivot n aug i)) i i.

(** One turn of the loop of lines 12-34; [None] is [return null]. *)
Definition elim_step (n : nat) (i : nat) (aug : matrix) : option matrix :=
  let maxRow := select_pivot n aug i in
  let aug := swap_rows aug i maxRow in
  if ltb (abs (get2 aug i i)) lit_1e_10 then None
  else Some (eliminate n i aug).

(** The loop of lines 12-34 over the steps [steps]. *)
Fixpoint forward (n : nat) (steps : list nat) (aug : matrix) : option matrix :=
  match steps with
  | [] => Some aug
  | i :: rest =>
      match elim_step n i aug with
      | None => None
      | Some aug' => forward n rest aug'
      end
  end.

(** Lines 37-43. *)
Definition back_substitute (n : nat) (aug : matrix) (x : list F) : list F :=
  for_down n
    (fun i x =>
       let sum :=
         for_range (S i) n (fun j sum => (sum + get2 aug i j * get x j)%num) 0%num in
       upd x i ((get2 aug i n - sum) / get2 aug i i)%num)
    x.

(** Line 10: [b.map((val, i) => [...M[i], val])]. *)
Definition augment (M : matrix) (b : list F) : matrix :=
  map_indexed (fun val i => row M i ++ [val]) 0 b.

Definition solveLinearSystem (A : matrix) (b : list F) : option (list F) :=
  let n := length A in
  let M := map (fun row => row) A in
  let x := repeat 0%num n in
  let aug := augment M b in
  match forward n (seq 0 n) aug with
  | None => None
  | Some aug => Some (back_substitute n aug x)
  end.

(** *** The coefficient matrix and the price system *)

(** Lines 106-115 and 138-147: [A[i][j] = X_j === 0 ? 0 : Q_ij / X_j]. *)
Definition coefficients (physicalMatrix : matrix) (totalOutputs : list F) : matrix :=
  let n := length totalOutputs in
  for_range 0 n
    (fun i A =>
       A ++ [for_range 0 n
               (fun j row =>
                  let Q_ij := get2 physicalMatrix i j in
                  let X_j := get totalOutputs j in
                  row ++ [if eqb X_j 0%num then 0%num else (Q_ij / X_j)%num])
               []])
    [].

(** Lines 151-156: [l[j] = X_j === 0 ? 0 : (L_j / X_j) * w]. *)
Definition unit_labor (laborVector totalOutputs : list F) (w : F) : list F :=
  let n := length totalOutputs in
  for_range 0 n
    (fun j l =>
       let L_j := get laborVector j in
       let X_j := get totalOutputs j in
       l ++ [if eqb X_j 0%num then 0%num else (L_j / X_j * w)%num])
    [].

(** Lines 162-180. *)
Definition system_matrix (A : matrix) (n : nat) (r : F) : matrix :=
  let Multiplier := (1 + r)%num in
  for_range 0 n
    (fun row SystemMatrix =>
       SystemMatrix ++
       [for_range 0 n
          (fun col matrixRow =>
             let a_input_into_row := get2 A col row in
             if Nat.eqb row col
             then matrixRow ++ [(1 - Multiplier * a_input_into_row)%num]
             else matrixRow ++ [(- Multiplier * a_input_into_row)%num])
          []])
    [].

Record PriceResult : Type := { prices : list F; isValid : bool }.

(** Lines 128-192.  The default [w = 1.0] is left out: the one caller passes
    the wage. *)

Definition calculateSraffianPrices
    (physicalMatrix : matrix) (laborVector totalOutputs : list F) (r w : F)
    : PriceResult :=
  let n := length totalOutputs in
  let A := coefficients physicalMatrix totalOutputs in
  let l := unit_labor laborVector totalOutputs w in
  let SystemMatrix := system_matrix A n r in
  match solveLinearSystem SystemMatrix l with
  | None => {| prices := []; isValid := false |}
  | Some prices =>
      {| prices := prices;
         isValid := forallb (fun p => gtb p (- lit_1e_6)%num) prices |}
  end.

(** *** [getDominantEigenvalue] and [calculateMaxProfitRate] *)

Context {Q : MathSqrt F}.

(** Lines 61-68 and 82-87: [w = A * v], accumulated in place. *)
Definition mat_vec (n : nat) (A : matrix) (v : list F) : list F :=
  for_range 0 n
    (fun i w =>
       for_range 0 n
         (fun j w => upd w i (get w i + get2 A i j * get v j)%num)
         w)
    (repeat 0%num n).

(** Lines 71-73. *)
Definition euclidean_norm (n : nat) (w : list F) : F :=
  sqrt (for_range 0 n (fun i norm => (norm + sqr (get w i))%num) 0%num).

(** What one turn of the power iteration leaves behind. *)
Inductive Iteration : Type :=
| Returned (result : F)
| Running (v : list F).

(** The loop of lines 60-78, [iters] turns from the vector [v]. *)
Fixpoint power_iteration (n : nat) (A : matrix) (iters : nat) (v : list F) : Iteration :=
  match iters with
  | O => Running v
  | S iters' =>
      let w := mat_vec n A v in
      let norm := euclidean_norm n w in
      if ltb norm lit_1e_12 then Returned 0%num
      else
        power_iteration n A iters'
          (for_range 0 n (fun i v => upd v i (get w i / norm)%num) v)
  end.

Definition getDominantEigenvalue (A : matrix) : F :=
  let n := length A in
  if Nat.eqb n 0 then 0%num
  else
    let v := repeat (1 / sqrt (of_nat n))%num n in
    match power_iteration n A 1000 v with
    | Returned result => result
    | Running v =>
        let Av := mat_vec n A v in
        for_range 0 n (fun i lambda => (lambda + get v i * get Av i)%num) 0%num
    end.

Definition calculateMaxProfitRate (physicalMatrix : matrix) (totalOutputs : list F) : F :=
  let A := coefficients physicalMatrix totalOutputs in
  let lambda := getDominantEigenvalue A in
  if leb lambda lit_1e_9 then lit_100
  else (1 / lambda - 1)%num.

End MathTs.

(** ** [src/App.tsx] *)

Section AppTsx.

Context {F : Type} {N : Number F}.

(** [Commodity] of the type declarations. *)
Record Commodity : Type := {
  id : nat;
  name : String.string;
  totalOutput : F;
  laborInput : F
}.

(** [ComputedMetrics] of the type declarations. *)
Record ComputedMetrics : Type := {
  metrics_prices : list F;
  metrics_wage : F;
  metrics_isValid : bool;
  maxProfitRate : option F
}.

(** [commodities[idx]]; the program reads it only for [idx] within range. *)
Definition commodity (commodities : list Commodity) (idx : nat) : Commodity :=
  nth idx commodities
    {| id := 0; name := String.EmptyString;
       totalOutput := undefined; laborInput := undefined |}.

(** [p || 0]. *)
Definition or_zero (p : F) : F := if truthy p then p else 0%num.

Record Aggregates : Type := {
  totalWages : F;
  totalProfits : F;
  netProduct : F;
  totalCapital : F;
  wageShare : F;
  profitShare : F
}.

(** Lines 52-56: the pair (totalGrossOutput, totalWages) after the [forEach]. *)
Definition gross_and_wages (m : ComputedMetrics) (commodities : list Commodity) : F * F :=
  fold_left
    (fun acc c_idx =>
       let '(totalGrossOutput, totalWages) := acc in
       let '(c, idx) := c_idx in
       let p := or_zero (get (metrics_prices m) idx) in
       ((totalGrossOutput + p * totalOutput c)%num,
        (totalWages + metrics_wage m * laborInput c)%num))
    (combine commodities (seq 0 (length commodities)))
    (0%num, 0%num).

(** Lines 61-69. *)
Definition capital_advanced (m : ComputedMetrics) (commodities : list Commodity)
    (matrix : list (list F)) : F :=
  let n := length commodities in
  for_range 0 n
    (fun j totalCapital =>
       let industryCapital :=
         for_range 0 n
           (fun i industryCapital =>
              let inputAmount := get2 matrix i j in
              let p := or_zero (get (metrics_prices m) i) in
              (industryCapital + p * inputAmount)%num)
           0%num in
       (totalCapital + industryCapital)%num)
    0%num.

(** Lines 45-89; [None] is [null]. *)
Definition aggregates (m : ComputedMetrics) (commodities : list Commodity)
    (matrix : list (list F)) (profitRate : F) : option Aggregates :=
  if Nat.eqb (length (metrics_prices m)) 0 then None
  else
    let totalWages := snd (gross_and_wages m commodities) in
    let totalCapital := capital_advanced m commodities matrix in
    let totalProfits := (totalCapital * profitRate)%num in
    let netProduct := (totalWages + totalProfits)%num in
    let denom := if eqb netProduct 0%num then 1%num else netProduct in
    Some {| totalWages := totalWages;
            totalProfits := totalProfits;
            netProduct := netProduct;
            totalCapital := totalCapital;
            wageShare := (totalWages / denom * lit_100)%num;
            profitShare := (totalProfits / denom * lit_100)%num |}.

Record CostBreakdown : Type := {
  constantCapitalValue : F;
  profit : F;
  wageCost : F;
  price : F
}.

(** Lines 137-153; [None] is [null]. *)
Definition getCostBreakdown (m : ComputedMetrics) (commodities : list Commodity)
    (matrix : list (list F)) (profitRate : F) (idx : nat) : option CostBreakdown :=
  if Nat.eqb (length (metrics_prices m)) 0 then None
  else
    let price := get (metrics_prices m) idx in
    let constantCapitalValue :=
      for_range 0 (length commodities)
        (fun inputIdx constantCapitalValue =>
           let inputAmount := get2 matrix inputIdx idx in
           let output := totalOutput (commodity commodities idx) in
           let a_ij := if gtb output 0%num then (inputAmount / output)%num else 0%num in
           (constantCapitalValue + or_zero (get (metrics_prices m) inputIdx) * a_ij)%num)
        0%num in
    let profit := (constantCapitalValue * profitRate)%num in
    let wageCost :=
      (laborInput (commodity commodities idx) / totalOutput (commodity commodities idx)
       * metrics_wage m)%num in
    Some {| constantCapitalValue := constantCapitalValue;
            profit := profit;
            wageCost := wageCost;
            price := price |}.

(** Lines 29-42: the [metrics] memo. *)
Definition metrics {Q : MathSqrt F} (commodities : list Commodity)
    (matrix : list (list F)) (profitRate wage : F) : ComputedMetrics :=
  let laborVector := map laborInput commodities in
  let totalOutputs := map totalOutput commodities in
  let maxProfitRate := calculateMaxProfitRate matrix totalOutputs in
  let result := calculateSraffianPrices matrix laborVector totalOutputs profitRate wage in
  {| metrics_prices := prices result;
     metrics_isValid := isValid result;
     metrics_wage := wage;
     maxProfitRate := Some maxProfitRate |}.

End AppTsx.

(** ** Vocabulary of the statements *)

Section Vocabulary.

Context {F : Type} {N : Number F}.

(** An [n] by [c] array of rows. *)
Definition shaped (n c : nat) (M : list (list F)) : Prop :=
  length M = n /\ Forall (fun r => length r = c) M.

Definition square (n : nat) (M : list (list F)) : Prop := shaped n n M.

(** The sum of [f lo .. f (hi-1)], accumulated from [0] in index order. *)
Definition sum_range (lo hi : nat) (f : nat -> F) : F :=
  for_range lo hi (fun j s => (s + f j)%num) 0%num.

Definition sum_over (n : nat) (f : nat -> F) : F := sum_range 0 n f.

(** Entry [i] of the product [A x]. *)
Definition dot (n : nat) (a x : list F) : F :=
  sum_over n (fun j => (get a j * get x j)%num).

(** [x] satisfies every equation of the augmented system [aug]. *)
Definition satisfies (n : nat) (aug : list (list F)) (x : list F) : Prop :=
  forall k, k < n -> dot n (row aug k) x = get2 aug k n.

(** [A x = b], entry by entry. *)
Definition is_solution (n : nat) (A : list (list F)) (b x : list F) : Prop :=
  forall k, k < n -> dot n (row A k) x = get b k.

(** [A x] agrees with [b] within [tol], entry by entry, the residual being
    computed in the arithmetic at hand. *)
Definition within_tolerance (n : nat) (A : list (list F)) (b x : list F)
    (tol : F) : Prop :=
  forall k, k < n -> ltb (abs (dot n (row A k) x - get b k)%num) tol = true.

(** Row [p] of [A] is all zero, [is_zero] telling what a zero is. *)
Definition zero_row (is_zero : F -> Prop) (n : nat) (A : list (list F))
    (p : nat) : Prop :=
  p < n /\ forall j, j < n -> is_zero (get2 A p j).

(** From step [i] and the state [aug] on, every pivot row is regular, from
    its pivot to its last coefficient, at the step that uses it. *)
Definition pivot_rows_regular (regular : F -> Prop) (n i : nat)
    (aug : list (list F)) : Prop :=
  forall k aug',
    forward n (seq i k) aug = Some aug' -> i + k < n ->
    forall j, i + k <= j < n ->
      regular (get2 (swap_rows aug' (i + k) (select_pivot n aug' (i + k)))
                 (i + k) j).

(** Elimination meets a pivot below tolerance at step [k]: the first [k]
    steps go through and leave [aug], whose pivot fails the test. *)
Definition small_pivot_at (n : nat) (aug0 : list (list F)) (k : nat) : Prop :=
  k < n /\
  exists aug, forward n (seq 0 k) aug0 = Some aug /\
              ltb (abs (pivot n aug k)) lit_1e_10 = true.

(** The entries of the coefficient matrix, as the spec defines them. *)
Definition coefficient (inputMatrix : list (list F)) (totalOutputs : list F)
    (i j : nat) : F :=
  if eqb (get totalOutputs j) 0%num then 0%num
  else (get2 inputMatrix i j / get totalOutputs j)%num.

(** Columns [0 .. i-1] are zero below the diagonal. *)
Definition eliminated (n i : nat) (aug : list (list F)) : Prop :=
  forall k j, j < i -> j < k -> k < n -> get2 aug k j = 0%num.

(** The first [i] diagonal entries are not zero. *)
Definition pivots_nonzero (i : nat) (aug : list (list F)) : Prop :=
  forall k, k < i -> get2 aug k k <> 0%num.

(** Entry [(row, col)] of the system matrix: [A] is read transposed. *)
Definition system_entry (A : list (list F)) (r : F) (row col : nat) : F :=
  if Nat.eqb row col then (1 - (1 + r) * get2 A col row)%num
  else (- (1 + r) * get2 A col row)%num.

End Vocabulary.

(** What elimination needs of zeros: a zero is below the pivot tolerance, and
    eliminating between two zeros with a regular pivot row leaves a zero. *)
Record ZeroLaws {F : Type} (N : Number F) (is_zero regular : F -> Prop) : Prop := {
  zero_small : forall z : F, is_zero z -> ltb (abs z) lit_1e_10 = true;
  zero_eliminated :
    forall zi zj p a : F,
      is_zero zi -> is_zero zj ->
      regular p -> ltb (abs p) lit_1e_10 = false -> regular a ->
      is_zero (zj - zi / p * a)%num
}.

(** Exact arithmetic: the operations form a field, [===] is equality, and the
    comparisons used as guards separate a number from zero. *)
Record Exact {F : Type} (N : Number F) : Prop := {
  exact_field :
    field_theory 0%num 1%num add mul sub neg div (fun x => (1 / x)%num) (@eq F);
  exact_eqb : forall x y : F, eqb x y = true <-> x = y;
  exact_zero_small : ltb (abs 0%num) lit_1e_10 = true;
  exact_pivot : forall x : F, ltb (abs x) lit_1e_10 = false -> x <> 0%num;
  exact_positive : forall x : F, gtb x 0%num = true -> x <> 0%num;
  exact_falsy : forall x : F, truthy x = false -> x = 0%num
}.

(** ** The spec's reading of the eigenvalue estimator *)

Section EigenSpec.

Context {F : Type} {N : Number F} {Q : MathSqrt F}.

(** [w = A v]. *)
Definition spec_product (n : nat) (A : list (list F)) (v : list F) : list F :=
  map (fun i => dot n (row A i) v) (seq 0 n).

(** The Euclidean norm of [w]. *)
Definition spec_norm (n : nat) (w : list F) : F :=
  sqrt (sum_over n (fun i => sqr (get w i))).

(** [k] iterations from [v]; [None] when one of them returns 0 at once. *)
Fixpoint spec_iterate (n : nat) (A : list (list F)) (k : nat) (v : list F)
    : option (list F) :=
  match k with
  | O => Some v
  | S k' =>
      let w := spec_product n A v in
      let norm := spec_norm n w in
      if ltb norm lit_1e_12 then None
      else spec_iterate n A k' (map (fun wi => (wi / norm)%num) w)
  end.

(** The Rayleigh quotient [v^T A v], denominator omitted. *)
Definition spec_rayleigh (n : nat) (A : list (list F)) (v : list F) : F :=
  sum_over n (fun i => (get v i * get (spec_product n A v) i)%num).

Definition spec_dominantEigenvalue (n : nat) (A : list (list F)) : F :=
  match n with
  | O => 0%num
  | S _ =>
      match spec_iterate n A 1000 (repeat (1 / sqrt (of_nat n))%num n) with
      | None => 0%num
      | Some v => spec_rayleigh n A v
      end
  end.

End EigenSpec.

(** ** Concrete inputs *)

Module Example.

Import Binary64.
Import String.

(** The initial state of [src/App.tsx], lines 9-17. *)
Definition INITIAL_COMMODITIES : list (Commodity (F := float)) :=
  [ {| id := 1; name := "Wheat"%string; totalOutput := 575%float; laborInput := 18%float |};
    {| id := 2; name := "Iron"%string; totalOutput := 20%float; laborInput := 12%float |} ].

Definition INITIAL_MATRIX : list (list float) :=
  [ [280; 120]; [12; 8] ]%float.

(** 0.15, the initial profit rate. *)
Definition initial_rate : float := 0x1.3333333333333p-3%float.

(** One commodity whose total output is 0. *)
Definition idle_commodities : list (Commodity (F := float)) :=
  [ {| id := 1; name := "Wheat"%string; totalOutput := 0%float; laborInput := 10%float |} ].

Definition idle_matrix : list (list float) := [ [0] ]%float.

(** One commodity that consumes all it produces. *)
Definition no_surplus_commodities : list (Commodity (F := float)) :=
  [ {| id := 1; name := "Wheat"%string; totalOutput := 1%float; laborInput := 1%float |} ].

Definition no_surplus_matrix : list (list float) := [ [1] ]%float.

(** The system [7 x = 5e14]. *)
Definition seven : list (list float) := [ [7] ]%float.

Definition seven_rhs : list float := [ 500000000000000 ]%float.

(** [5e14 / 7], rounded to nearest. *)
Definition seven_root : float := 0x1.03db0a81db6dbp+46%float.

(** 1.7e308: twice this exceeds the largest binary64 number. *)
Definition huge : float := 0x1.e42d130773b76p+1023%float.

(** Finite entries, third row all zero. *)
Definition overflowing : list (list float) :=
  [ [1; - huge; - huge]; [1; huge; huge]; [0; 0; 0] ]%float.

Definition overflowing_rhs : list float := [1; 2; 3]%float.

(** Small entries, second row all zero. *)
Definition deficient : list (list float) := [ [1; 2]; [0; 0] ]%float.

Definition deficient_rhs : list float := [3; 4]%float.

(** Rational systems: [x + 2 y = 5, 3 x + 4 y = 6], and one with a zero row. *)
Definition regular : list (list Qc) :=
  [ [Q2Qc 1; Q2Qc 2]; [Q2Qc 3; Q2Qc 4] ].

Definition regular_rhs : list Qc := [Q2Qc 5; Q2Qc 6].

Definition singular : list (list Qc) :=
  [ [Q2Qc 1; Q2Qc 2]; [Q2Qc 0; Q2Qc 0] ].

(** A rational snapshot: output 2, labor 1, own input 1, [r = 1/2], [w = 1]. *)
Definition rational_commodities : list (Commodity (F := Qc)) :=
  [ {| id := 1; name := "Wheat"%string;
       totalOutput := Q2Qc 2; laborInput := Q2Qc 1 |} ].

Definition rational_matrix : list (list Qc) := [ [Q2Qc 1] ].

Definition rational_rate : Qc := Q2Qc (1 # 2).

Definition rational_metrics : ComputedMetrics (F := Qc) :=
  let result :=
    calculateSraffianPrices rational_matrix (map laborInput rational_commodities)
      (map totalOutput rational_commodities) rational_rate (Q2Qc 1) in
  {| metrics_prices := prices result;
     metrics_wage := Q2Qc 1;
     metrics_isValid := isValid result;
     maxProfitRate := None |}.

End Example.

(** ** The editing handlers of [src/App.tsx] and of the matrix editor *)

(** [a.filter((_, i) => keep(i))], [i0] being the index of the head. *)
Fixpoint filter_indexed {A : Type} (keep : nat -> bool) (i0 : nat) (a : list A)
    : list A :=
  match a with
  | [] => []
  | x :: t =>
      if keep i0 then x :: filter_indexed keep (S i0) t
      else filter_indexed keep (S i0) t
  end.

(** [Math.max(...ids)] on natural numbers; [None] is the [-Infinity] of the
    empty list. *)
Definition max_id (ids : list nat) : option nat :=
  match ids with
  | [] => None
  | x :: t => Some (fold_left Nat.max t x)
  end.

(** An identifier is a JavaScript number that holds a natural number, and a
    sum of two such numbers is the exact sum rounded to binary64: to 53
    significant bits, ties to even.  [round_binary64 z] is that rounding of
    the natural number [z]: [e] is the number of low bits that do not fit,
    [q] the 53 bits kept, [rest] the bits dropped.  No rounding happens below
    2^53.  A natural number that binary64 holds is below 2^1024 and so is the
    rounding of its successor: infinity is never met. *)
Definition round_binary64 (z : N) : N :=
  if (N.log2 z <? 53)%N then z
  else
    let e := (N.log2 z - 52)%N in
    let q := N.shiftr z e in
    let rest := (z - N.shiftl q e)%N in
    let half := N.shiftl 1 (e - 1) in
    let up := (half <? rest)%N || ((rest =? half)%N && N.odd q) in
    N.shiftl (if up then q + 1 else q)%N e.

(** [m + 1] on an identifier. *)
Definition plus_one (m : nat) : nat :=
  N.to_nat (round_binary64 (N.of_nat m + 1)).

Arguments plus_one : simpl never.

(** The binary64 number that holds the natural number [z], for [z] below
    2^63 with at most 53 significant bits. *)
Definition binary64_of_N (z : N) : float :=
  PrimFloat.of_uint63 (Uint63.of_Z (Z.of_N z)).

Module Names.

Import String.

(** The decimal digits of a natural number, as a template literal prints
    them. *)
Definition decimal (n : nat) : string :=
  DecimalString.NilEmpty.string_of_uint (Nat.to_uint n).

(** [`Comm ${newId}`]. *)
Definition comm_name (newId : nat) : string :=
  append "Comm "%string (decimal newId).

End Names.

Section Handlers.

Context {F : Type} {N : Number F}.

(** What the user edits: the commodities and the input matrix. *)
Definition Snapshot : Type := (list (Commodity (F := F)) * list (list F))%type.

(** [src/App.tsx], lines 101-115.  Identifiers are the natural numbers that
    binary64 holds, and [+ 1] rounds as binary64 does; on an empty list
    [Math.max] is [-Infinity], so is the new identifier, and the result is
    outside the model: [None]. *)
Definition handleAddCommodity (commodities : list Commodity)
    (matrix : list (list F)) : option Snapshot :=
  match max_id (map id commodities) with
  | None => None
  | Some m =>
      let newId := plus_one (if Nat.eqb m 0 then 0 else m) in
      let newComm :=
        {| id := newId;
           name := Names.comm_name newId;
           totalOutput := lit_100;
           laborInput := of_nat 10 |} in
      let intermediateMatrix := map (fun row => row ++ [0%num]) matrix in
      let newRow := repeat 0%num (length commodities + 1) in
      Some (commodities ++ [newComm], intermediateMatrix ++ [newRow])
  end.

(** [src/App.tsx], lines 117-128. *)
Definition handleRemoveCommodity (commodities : list Commodity)
    (matrix : list (list F)) (index : nat) : Snapshot :=
  if Nat.leb (length commodities) 1 then (commodities, matrix)
  else
    let newComms := filter_indexed (fun i => negb (Nat.eqb i index)) 0 commodities in
    let newMatrix :=
      map (fun row => filter_indexed (fun c => negb (Nat.eqb c index)) 0 row)
        (filter_indexed (fun r => negb (Nat.eqb r index)) 0 matrix) in
    (newComms, newMatrix).

(** The pair [field, value] of [handleCommodityUpdate]. *)
Inductive FieldUpdate : Type :=
| SetId (value : nat)
| SetName (value : String.string)
| SetTotalOutput (value : F)
| SetLaborInput (value : F).

(** [{ ...c, [field]: value }]. *)
Definition with_field (c : Commodity) (u : FieldUpdate) : Commodity :=
  match u with
  | SetId v =>
      {| id := v; name := name c;
         totalOutput := totalOutput c; laborInput := laborInput c |}
  | SetName v =>
      {| id := id c; name := v;
         totalOutput := totalOutput c; laborInput := laborInput c |}
  | SetTotalOutput v =>
      {| id := id c; name := name c;
         totalOutput := v; laborInput := laborInput c |}
  | SetLaborInput v =>
      {| id := id c; name := name c;
         totalOutput := totalOutput c; laborInput := v |}
  end.

(** [src/App.tsx], lines 95-99, for [index] within the list (the editor calls
    it with the index of a commodity it displays). *)
Definition handleCommodityUpdate (commodities : list Commodity) (index : nat)
    (u : FieldUpdate) : list Commodity :=
  upd commodities index (with_field (commodity commodities index) u).

(** [isNaN(num)] on a number. *)
Definition is_nan (x : F) : bool := negb (eqb x x).

(** [handleMatrixChange] of the matrix editor followed by [handleMatrixUpdate]
    ([src/App.tsx], lines 91-93), for a cell [(row, col)] the editor displays.
    [num] is what [parseFloat] made of the text typed. *)
Definition handleMatrixChange (matrix : list (list F)) (row col : nat) (num : F)
    : list (list F) :=
  if is_nan num then matrix
  else
    let newMatrix := map (fun r => r) matrix in
    upd2 newMatrix row col num.

End Handlers.

(** ** Vocabulary of the further statements *)

(** What partial pivoting needs of [>]: nothing exceeds itself, and what does
    not exceed [y] does not exceed anything above [y]. *)
Record PivotOrder {F : Type} (N : Number F) : Prop := {
  gtb_irreflexive : forall x : F, gtb x x = false;
  gtb_chain :
    forall x y z : F, gtb x y = false -> gtb z y = true -> gtb x z = false
}.

(** ** Further concrete inputs *)

Module Scenario.

(** An augmented matrix whose largest entry of column 0 is in row 1. *)
Definition unsorted : list (list float) := [ [1; 2; 3]; [-4; 5; 6] ]%float.

(** The solution of [x + 2 y = 5, 3 x + 4 y = 6]. *)
Definition regular_solution : list Qc := [Q2Qc (-4); Q2Qc (9 # 2)].

(** Identifiers around 2^53 and 2^54, where binary64 starts to round. *)
Definition identifiers : list N :=
  [0; 1; 2; 99; 2 ^ 52; 2 ^ 53 - 2; 2 ^ 53 - 1; 2 ^ 53; 2 ^ 53 + 2; 2 ^ 53 + 4;
   2 ^ 53 + 6; 2 ^ 54 - 2; 2 ^ 54; 2 ^ 54 + 4; 2 ^ 54 + 8; 2 ^ 60; 2 ^ 62]%N.

(** One commodity that consumes all but 2^-50 of what it produces. *)
Definition near_cancelling_commodities : list (Commodity (F := float)) :=
  [ {| id := 1; name := String.EmptyString;
       totalOutput := 1%float; laborInput := 1%float |} ].

Definition near_cancelling_matrix : list (list float) :=
  [ [ (1 - 0x1p-50)%float ] ].

(** Two commodities made by labor alone, paid at a wage near the largest
    binary64 number. *)
Definition labor_only_commodities : list (Commodity (F := float)) :=
  [ {| id := 1; name := String.EmptyString;
       totalOutput := 1%float; laborInput := 1%float |};
    {| id := 2; name := String.EmptyString;
       totalOutput := 1%float; laborInput := 1%float |} ].

Definition labor_only_matrix : list (list float) := [ [0; 0]; [0; 0] ]%float.

Definition high_wage : float := 0x1.1ccf385ebc8ap+1023%float.

End Scenario.

(** * Facts about arrays and loops *)

Section ArrayFacts.

Context {A : Type}.

Lemma length_upd (a : list A) (i : nat) (x : A) : length (upd a i x) = length a.
Proof.
  revert i; induction a as [|h t IH]; intros [|i]; simpl; auto.
Qed.

Lemma nth_upd_same (a : list A) (i : nat) (x d : A) :
  i < length a -> nth i (upd a i x) d = x.
Proof.
  revert i; induction a as [|h t IH]; intros [|i] Hi; simpl in *; try lia; auto.
  apply IH; lia.
Qed.

Lemma nth_upd_other (a : list A) (i j : nat) (x d : A) :
  i <> j -> nth j (upd a i x) d = nth j a d.
Proof.
  revert i j; induction a as [|h t IH]; intros [|i] [|j] Hij; simpl;
    try reflexivity; try (apply IH); lia.
Qed.

Lemma Forall_upd (P : A -> Prop) (a : list A) (i : nat) (x : A) :
  Forall P a -> P x -> Forall P (upd a i x).
Proof.
  intros Ha Hx; revert i; induction Ha as [|h t Hh Ht IH]; intros [|i]; simpl; auto.
Qed.

End ArrayFacts.

Section LoopFacts.

Context {St : Type}.

Lemma for_range_empty (lo hi : nat) (body : nat -> St -> St) (s : St) :
  hi <= lo -> for_range lo hi body s = s.
Proof.
  intros H; unfold for_range; replace (hi - lo) with 0 by lia; reflexivity.
Qed.

Lemma for_range_last (lo hi : nat) (body : nat -> St -> St) (s : St) :
  lo <= hi -> for_range lo (S hi) body s = body hi (for_range lo hi body s).
Proof.
  intros H; unfold for_range.
  replace (S hi - lo) with (S (hi - lo)) by lia.
  rewrite seq_S, fold_left_app; simpl.
  replace (lo + (hi - lo)) with hi by lia; reflexivity.
Qed.

Lemma for_range_first (lo hi : nat) (body : nat -> St -> St) (s : St) :
  lo < hi -> for_range lo hi body s = for_range (S lo) hi body (body lo s).
Proof.
  intros H; unfold for_range.
  replace (hi - lo) with (S (hi - S lo)) by lia; reflexivity.
Qed.

(** Loop invariants: [P k s] holds of the state [s] before turn [k]. *)
Lemma for_range_invariant (P : nat -> St -> Prop) (lo hi : nat)
    (body : nat -> St -> St) (s : St) :
  lo <= hi ->
  P lo s ->
  (forall k t, lo <= k < hi -> P k t -> P (S k) (body k t)) ->
  P hi (for_range lo hi body s).
Proof.
  intros Hle H0 Hstep; induction Hle as [|hi Hle IH].
  - rewrite for_range_empty by lia; exact H0.
  - rewrite for_range_last by exact Hle.
    apply Hstep; [lia|]. apply IH. intros k t Hk; apply Hstep; lia.
Qed.

Lemma for_range_ext (lo hi : nat) (body body' : nat -> St -> St) (s : St) :
  (forall k t, lo <= k < hi -> body k t = body' k t) ->
  for_range lo hi body s = for_range lo hi body' s.
Proof.
  intros Hext; destruct (le_lt_dec lo hi) as [Hle|Hlt].
  - apply (for_range_invariant
             (fun k t => t = for_range lo k body' s) body s Hle).
    + rewrite for_range_empty by lia; reflexivity.
    + intros k t Hk ->. rewrite for_range_last by lia. apply Hext; lia.
  - rewrite !for_range_empty by lia; reflexivity.
Qed.

End LoopFacts.

(** * The coefficient matrix and the system matrix *)

Section Builders.

Context {F : Type} {N : Number F}.

(** A loop that pushes one element per turn builds [map f] of its range. *)
Lemma for_range_push {B : Type} (f : nat -> B) (lo hi : nat) (acc : list B) :
  for_range lo hi (fun k acc => acc ++ [f k]) acc
  = acc ++ map f (seq lo (hi - lo)).
Proof.
  unfold for_range; generalize (hi - lo); intros len.
  revert lo acc; induction len as [|len IH]; intros lo acc; simpl.
  - now rewrite app_nil_r.
  - rewrite IH, <- app_assoc; reflexivity.
Qed.

(** The same for a body that is only pointwise of that form. *)
Lemma for_range_map {B : Type} (f : nat -> B) (n : nat)
    (body : nat -> list B -> list B) :
  (forall k acc, k < n -> body k acc = acc ++ [f k]) ->
  for_range 0 n body [] = map f (seq 0 n).
Proof.
  intros Hbody.
  rewrite (for_range_ext body (fun k acc => acc ++ [f k])).
  - rewrite for_range_push, Nat.sub_0_r; reflexivity.
  - intros k t Hk; apply Hbody; lia.
Qed.

Lemma nth_map_seq {B : Type} (f : nat -> B) (n i : nat) (d : B) :
  i < n -> nth i (map f (seq 0 n)) d = f i.
Proof.
  intros Hi. rewrite nth_indep with (d' := f 0) by now rewrite length_map, length_seq.
  rewrite map_nth, seq_nth by exact Hi; reflexivity.
Qed.

Lemma coefficients_map (physicalMatrix : list (list F)) (totalOutputs : list F) :
  coefficients physicalMatrix totalOutputs
  = map (fun i => map (coefficient physicalMatrix totalOutputs i)
                    (seq 0 (length totalOutputs)))
      (seq 0 (length totalOutputs)).
Proof.
  unfold coefficients; cbv zeta.
  rewrite (for_range_map (fun i => map (coefficient physicalMatrix totalOutputs i)
                                     (seq 0 (length totalOutputs)))).
  - reflexivity.
  - intros i acc _. f_equal. f_equal.
    apply for_range_map; intros j acc' _; reflexivity.
Qed.

Lemma coefficients_entry (physicalMatrix : list (list F)) (totalOutputs : list F)
    (i j : nat) :
  i < length totalOutputs -> j < length totalOutputs ->
  get2 (coefficients physicalMatrix totalOutputs) i j
  = coefficient physicalMatrix totalOutputs i j.
Proof.
  intros Hi Hj. rewrite coefficients_map. unfold get2, row, get.
  rewrite nth_map_seq by exact Hi. rewrite nth_map_seq by exact Hj. reflexivity.
Qed.

Lemma coefficients_square (physicalMatrix : list (list F)) (totalOutputs : list F) :
  square (length totalOutputs) (coefficients physicalMatrix totalOutputs).
Proof.
  rewrite coefficients_map; split.
  - now rewrite length_map, length_seq.
  - apply Forall_forall; intros r Hr. apply in_map_iff in Hr as [i [<- _]].
    now rewrite length_map, length_seq.
Qed.

Lemma unit_labor_map (laborVector totalOutputs : list F) (w : F) :
  unit_labor laborVector totalOutputs w
  = map (fun j => if eqb (get totalOutputs j) 0%num then 0%num
                  else (get laborVector j / get totalOutputs j * w)%num)
      (seq 0 (length totalOutputs)).
Proof.
  unfold unit_labor; cbv zeta.
  apply for_range_map; intros j acc _; reflexivity.
Qed.

Lemma system_matrix_map (A : list (list F)) (n : nat) (r : F) :
  system_matrix A n r
  = map (fun row => map (system_entry A r row) (seq 0 n)) (seq 0 n).
Proof.
  unfold system_matrix; cbv zeta.
  apply for_range_map; intros row acc _. f_equal. f_equal.
  apply for_range_map; intros col acc' _.
  unfold system_entry. destruct (Nat.eqb row col); reflexivity.
Qed.

Lemma system_matrix_entry (A : list (list F)) (n : nat) (r : F) (i j : nat) :
  i < n -> j < n ->
  get2 (system_matrix A n r) i j = system_entry A r i j.
Proof.
  intros Hr Hc. rewrite system_matrix_map. unfold get2, row, get.
  rewrite nth_map_seq by exact Hr. rewrite nth_map_seq by exact Hc. reflexivity.
Qed.

Lemma system_matrix_square (A : list (list F)) (n : nat) (r : F) :
  square n (system_matrix A n r).
Proof.
  rewrite system_matrix_map; split.
  - now rewrite length_map, length_seq.
  - apply Forall_forall; intros x Hx. apply in_map_iff in Hx as [i [<- _]].
    now rewrite length_map, length_seq.
Qed.

End Builders.

(** * The structure of the solver's elimination loop *)

Section ForwardFacts.

Context {F : Type} {N : Number F}.

Lemma forward_app (n : nat) (s1 s2 : list nat) (aug : list (list F)) :
  forward n (s1 ++ s2) aug
  = match forward n s1 aug with
    | None => None
    | Some aug' => forward n s2 aug'
    end.
Proof.
  revert aug; induction s1 as [|i s1 IH]; intros aug; simpl; [reflexivity|].
  destruct (elim_step n i aug); [apply IH | reflexivity].
Qed.

Lemma elim_step_none (n i : nat) (aug : list (list F)) :
  elim_step n i aug = None <-> ltb (abs (pivot n aug i)) lit_1e_10 = true.
Proof.
  unfold elim_step, pivot.
  destruct (ltb _ lit_1e_10); split; intros H; congruence.
Qed.

Lemma elim_step_some (n i : nat) (aug aug' : list (list F)) :
  elim_step n i aug = Some aug' ->
  ltb (abs (pivot n aug i)) lit_1e_10 = false /\
  aug' = eliminate n i (swap_rows aug i (select_pivot n aug i)).
Proof.
  unfold elim_step, pivot.
  destruct (ltb _ lit_1e_10); intros H; inversion H; auto.
Qed.

(** The loop stops with [null] exactly when some step meets a small pivot. *)
Lemma forward_none_iff (n m : nat) (aug0 : list (list F)) :
  forward n (seq 0 m) aug0 = None <->
  exists k, k < m /\
    exists aug, forward n (seq 0 k) aug0 = Some aug /\
                ltb (abs (pivot n aug k)) lit_1e_10 = true.
Proof.
  induction m as [|m IH].
  - simpl; split; [discriminate | intros [k [Hk _]]; lia].
  - rewrite seq_S, forward_app; simpl.
    destruct (forward n (seq 0 m) aug0) as [aug|] eqn:Hm.
    + destruct (elim_step n m aug) as [aug'|] eqn:Hs; split.
      * discriminate.
      * intros [k [Hk [a [Hfk Hp]]]].
        assert (k = m \/ k < m) as [->|Hlt] by lia.
        -- rewrite Hm in Hfk; inversion Hfk; subst a.
           apply elim_step_none in Hp; congruence.
        -- assert (Some aug = None) as Hnone
             by (apply IH; exists k; split; [exact Hlt | exists a; auto]).
           discriminate.
      * intros _; exists m; split; [lia|]. exists aug; split; [exact Hm|].
        now apply elim_step_none.
      * reflexivity.
    + split; [|reflexivity]. intros _.
      destruct (proj1 IH eq_refl) as [k [Hk Hrest]].
      exists k; split; [lia | exact Hrest].
Qed.

Lemma solveLinearSystem_unfold (A : list (list F)) (b : list F) :
  solveLinearSystem A b
  = match forward (length A) (seq 0 (length A)) (augment A b) with
    | None => None
    | Some aug =>
        Some (back_substitute (length A) aug (repeat 0%num (length A)))
    end.
Proof.
  unfold solveLinearSystem; rewrite map_id; reflexivity.
Qed.

Lemma solveLinearSystem_none_iff (A : list (list F)) (b : list F) :
  solveLinearSystem A b = None <->
  exists k, small_pivot_at (length A) (augment A b) k.
Proof.
  rewrite solveLinearSystem_unfold. unfold small_pivot_at.
  rewrite <- forward_none_iff.
  destruct (forward _ _ _); split; congruence.
Qed.

End ForwardFacts.

(** * What one elimination step does to the augmented matrix *)

Section EliminationFacts.

Context {F : Type} {N : Number F}.

Lemma shaped_row (n c : nat) (M : list (list F)) (k : nat) :
  shaped n c M -> k < n -> length (row M k) = c.
Proof.
  intros [Hlen Hrows] Hk. unfold row.
  rewrite Forall_forall in Hrows. apply Hrows, nth_In. lia.
Qed.

Lemma get2_upd2 (M : list (list F)) (k j k' j' : nat) (x : F) :
  k < length M -> j < length (row M k) ->
  get2 (upd2 M k j x) k' j'
  = if Nat.eqb k' k && Nat.eqb j' j then x else get2 M k' j'.
Proof.
  intros Hk Hj. unfold get2, upd2, row, get in *.
  destruct (Nat.eqb_spec k' k) as [->|Hne]; simpl.
  - rewrite nth_upd_same by exact Hk.
    destruct (Nat.eqb_spec j' j) as [->|Hne'].
    + now rewrite nth_upd_same.
    + rewrite nth_upd_other by congruence; reflexivity.
  - rewrite nth_upd_other by congruence; reflexivity.
Qed.

Lemma shaped_upd2 (n c : nat) (M : list (list F)) (k j : nat) (x : F) :
  shaped n c M -> k < n -> shaped n c (upd2 M k j x).
Proof.
  intros HM Hk. pose proof (shaped_row HM Hk) as Hrow.
  destruct HM as [Hlen Hrows]. unfold upd2; split.
  - now rewrite length_upd.
  - apply Forall_upd; [exact Hrows|]. rewrite length_upd. exact Hrow.
Qed.

Lemma select_pivot_range (n : nat) (aug : list (list F)) (i : nat) :
  i < n -> i <= select_pivot n aug i < n.
Proof.
  intros Hi. unfold select_pivot.
  assert (i <= for_range (S i) n
                 (fun k maxRow =>
                    if gtb (abs (get2 aug k i)) (abs (get2 aug maxRow i))
                    then k else maxRow) i < n /\ True) as [H _]; [|exact H].
  apply (for_range_invariant (fun k m => i <= m < k /\ True)).
  - lia.
  - split; [lia | exact I].
  - intros k t Hk [Ht _]. split; [|exact I].
    destruct (gtb _ _); lia.
Qed.

Lemma row_swap_rows (n c : nat) (aug : list (list F)) (i m k : nat) :
  shaped n c aug -> i < n -> m < n ->
  row (swap_rows aug i m) k
  = if Nat.eqb k m then row aug i
    else if Nat.eqb k i then row aug m else row aug k.
Proof.
  intros [Hlen _] Hi Hm. unfold swap_rows, row.
  destruct (Nat.eqb_spec k m) as [->|Hkm].
  - rewrite nth_upd_same by (rewrite length_upd; lia); reflexivity.
  - rewrite nth_upd_other by congruence.
    destruct (Nat.eqb_spec k i) as [->|Hki].
    + rewrite nth_upd_same by lia; reflexivity.
    + rewrite nth_upd_other by congruence; reflexivity.
Qed.

Lemma shaped_swap_rows (n c : nat) (aug : list (list F)) (i m : nat) :
  shaped n c aug -> i < n -> m < n -> shaped n c (swap_rows aug i m).
Proof.
  intros Haug Hi Hm.
  pose proof (shaped_row Haug Hi) as Hri. pose proof (shaped_row Haug Hm) as Hrm.
  destruct Haug as [Hlen Hrows]. unfold swap_rows; split.
  - now rewrite !length_upd.
  - apply Forall_upd; [apply Forall_upd|]; assumption.
Qed.

Lemma eliminate_row_spec (n : nat) (aug : list (list F)) (i k : nat) :
  shaped n (S n) aug -> i < n -> k < n -> k <> i ->
  shaped n (S n) (eliminate_row n i k aug) /\
  forall k' j,
    get2 (eliminate_row n i k aug) k' j
    = if Nat.eqb k' k && Nat.leb i j && Nat.leb j n
      then (get2 aug k j - get2 aug k i / get2 aug i i * get2 aug i j)%num
      else get2 aug k' j.
Proof.
  intros Haug Hi Hk Hki. unfold eliminate_row; cbv zeta.
  set (factor := (get2 aug k i / get2 aug i i)%num).
  assert (shaped n (S n) (for_range i (S n)
            (fun j a => upd2 a k j (get2 a k j - factor * get2 a i j)%num) aug)
          /\ forall k' j,
            get2 (for_range i (S n)
               (fun j a => upd2 a k j (get2 a k j - factor * get2 a i j)%num) aug) k' j
            = if Nat.eqb k' k && Nat.leb i j && Nat.ltb j (S n)
              then (get2 aug k j - factor * get2 aug i j)%num
              else get2 aug k' j) as [Hs Hg].
  { apply (for_range_invariant
             (fun hi a => shaped n (S n) a /\ forall k' j,
                  get2 a k' j
                  = if Nat.eqb k' k && Nat.leb i j && Nat.ltb j hi
                    then (get2 aug k j - factor * get2 aug i j)%num
                    else get2 aug k' j)).
    - lia.
    - split; [exact Haug|]. intros k' j.
      destruct (Nat.eqb k' k), (Nat.leb_spec i j), (Nat.ltb_spec j i);
        simpl; try reflexivity; lia.
    - intros j a Hj [Ha Hget]. split; [now apply shaped_upd2|].
      intros k' j'.
      pose proof (shaped_row Ha Hk) as Hrk. pose proof (proj1 Ha) as Hl.
      rewrite get2_upd2 by lia.
      rewrite !Hget.
      destruct (Nat.eqb_spec k' k) as [->|Hne]; simpl; [|reflexivity].
      destruct (Nat.eqb_spec j' j) as [->|Hne'].
      + rewrite Nat.eqb_refl.
        replace (Nat.ltb j j) with false by (symmetry; apply Nat.ltb_irrefl).
        replace (Nat.eqb i k) with false
          by (symmetry; apply Nat.eqb_neq; congruence).
        rewrite !andb_false_r; simpl.
        replace (Nat.leb i j) with true by (symmetry; apply Nat.leb_le; lia).
        replace (Nat.ltb j (S j)) with true by (symmetry; apply Nat.ltb_lt; lia).
        reflexivity.
      + destruct (Nat.leb i j'); simpl; [|reflexivity].
        destruct (Nat.ltb_spec j' j), (Nat.ltb_spec j' (S j)); try reflexivity; lia. }
  split; [exact Hs|]. intros k' j. rewrite Hg.
  destruct (Nat.eqb k' k), (Nat.leb i j); reflexivity.
Qed.

Lemma eliminate_spec (n : nat) (aug : list (list F)) (i : nat) :
  shaped n (S n) aug -> i < n ->
  shaped n (S n) (eliminate n i aug) /\
  forall k j,
    get2 (eliminate n i aug) k j
    = if Nat.ltb i k && Nat.ltb k n && Nat.leb i j && Nat.leb j n
      then (get2 aug k j - get2 aug k i / get2 aug i i * get2 aug i j)%num
      else get2 aug k j.
Proof.
  intros Haug Hi. unfold eliminate.
  apply (for_range_invariant
           (fun hi a => shaped n (S n) a /\ forall k j,
                get2 a k j
                = if Nat.ltb i k && Nat.ltb k hi && Nat.leb i j && Nat.leb j n
                  then (get2 aug k j - get2 aug k i / get2 aug i i * get2 aug i j)%num
                  else get2 aug k j)).
  - lia.
  - split; [exact Haug|]. intros k j.
    destruct (Nat.ltb_spec i k), (Nat.ltb_spec k (S i)); simpl; try reflexivity; lia.
  - intros k a Hk [Ha Hget].
    destruct (eliminate_row_spec Ha Hi (proj2 Hk) (not_eq_sym (Nat.lt_neq _ _ (proj1 Hk))))
      as [Hs Hrow].
    split; [exact Hs|]. intros k' j. rewrite Hrow, !Hget.
    rewrite !Nat.ltb_irrefl, !andb_false_r; simpl.
    destruct (Nat.eqb_spec k' k) as [->|Hne]; simpl.
    + rewrite ?Nat.ltb_irrefl, ?andb_false_r.
      replace (Nat.ltb i k) with true by (symmetry; apply Nat.ltb_lt; lia).
      replace (Nat.ltb k (S k)) with true by (symmetry; apply Nat.ltb_lt; lia).
      simpl. destruct (Nat.leb i j && Nat.leb j n); reflexivity.
    + destruct (Nat.ltb i k'); simpl; [|reflexivity].
      destruct (Nat.ltb_spec k' k), (Nat.ltb_spec k' (S k)); try reflexivity; lia.
Qed.

Lemma get_upd (x : list F) (i j : nat) (v : F) :
  i < length x -> get (upd x i v) j = if Nat.eqb j i then v else get x j.
Proof.
  intros Hi. unfold get. destruct (Nat.eqb_spec j i) as [->|Hne].
  - now apply nth_upd_same.
  - apply nth_upd_other; congruence.
Qed.

Lemma sum_range_ext (lo hi : nat) (f g : nat -> F) :
  (forall j, lo <= j < hi -> f j = g j) -> sum_range lo hi f = sum_range lo hi g.
Proof.
  intros Hfg. unfold sum_range. apply for_range_ext.
  intros k t Hk. now rewrite Hfg.
Qed.

(** Back substitution leaves every unknown equal to its defining quotient,
    read off the final vector. *)
Lemma back_substitute_spec (n : nat) (aug : list (list F)) (x0 : list F) :
  length x0 = n ->
  length (back_substitute n aug x0) = n /\
  forall i, i < n ->
    get (back_substitute n aug x0) i
    = ((get2 aug i n
        - sum_range (S i) n
            (fun j => get2 aug i j * get (back_substitute n aug x0) j))
       / get2 aug i i)%num.
Proof.
  intros Hlen. unfold back_substitute.
  set (body := fun (i : nat) (x : list F) =>
                 upd x i ((get2 aug i n
                           - for_range (S i) n
                               (fun j sum => sum + get2 aug i j * get x j) 0)
                          / get2 aug i i)%num).
  set (E := fun (x : list F) (i : nat) =>
              ((get2 aug i n - sum_range (S i) n (fun j => get2 aug i j * get x j))
               / get2 aug i i)%num).
  assert (HE : forall x x' i,
             (forall j, i < j -> get x j = get x' j) -> E x i = E x' i).
  { intros x x' i Hx. unfold E. f_equal. f_equal.
    apply sum_range_ext; intros j Hj. rewrite Hx by lia; reflexivity. }
  assert (Hgen : forall m x,
             m <= n -> length x = n ->
             (forall i, m <= i < n -> get x i = E x i) ->
             length (for_down m body x) = n /\
             forall i, i < n -> get (for_down m body x) i = E (for_down m body x) i).
  { induction m as [|m IH]; intros x Hm Hx Hdone; simpl.
    - split; [exact Hx|]. intros i Hi; apply Hdone; lia.
    - apply IH; [lia | unfold body; now rewrite length_upd |].
      intros i Hi. unfold body at 1 2.
      rewrite get_upd by lia.
      destruct (Nat.eqb_spec i m) as [->|Hne].
      + apply HE. intros j Hj. rewrite get_upd by lia.
        destruct (Nat.eqb_spec j m); [lia | reflexivity].
      + rewrite Hdone by lia. apply HE. intros j Hj. rewrite get_upd by lia.
        destruct (Nat.eqb_spec j m); [lia | reflexivity]. }
  apply (Hgen n x0); [lia | exact Hlen | intros i Hi; lia].
Qed.

End EliminationFacts.

(** * A zero row is never eliminated away *)

Section ZeroRows.

Context {F : Type} {N : Number F} {is_zero regular : F -> Prop}.
Context (L : ZeroLaws N is_zero regular).

Lemma elim_step_zero_row (n i : nat) (aug aug' : list (list F)) (p : nat) :
  shaped n (S n) aug -> i < n ->
  i <= p -> zero_row is_zero n aug p ->
  (forall j, i <= j < n ->
     regular (get2 (swap_rows aug i (select_pivot n aug i)) i j)) ->
  elim_step n i aug = Some aug' ->
  shaped n (S n) aug' /\ exists p', S i <= p' /\ zero_row is_zero n aug' p'.
Proof.
  intros Haug Hi Hip [Hp Hzero] Hreg Hstep.
  apply elim_step_some in Hstep as [Hpiv ->]. unfold pivot in Hpiv.
  pose proof (select_pivot_range aug Hi) as Hm.
  set (m := select_pivot n aug i) in *.
  pose proof (shaped_swap_rows Haug Hi (proj2 Hm)) as Haug1.
  pose proof (fun k => row_swap_rows k Haug Hi (proj2 Hm)) as Hrows.
  set (aug1 := swap_rows aug i m) in *.
  destruct (eliminate_spec Haug1 Hi) as [Hs Hget].
  split; [exact Hs|].
  set (p1 := if Nat.eqb p i then m else if Nat.eqb p m then i else p).
  assert (Hp1 : i <= p1 < n /\ row aug1 p1 = row aug p).
  { unfold p1. rewrite Hrows.
    destruct (Nat.eqb_spec p i) as [->|Hpi].
    - rewrite Nat.eqb_refl. split; [lia | reflexivity].
    - destruct (Nat.eqb_spec p m) as [->|Hpm].
      + destruct (Nat.eqb_spec i m); [congruence|].
        rewrite Nat.eqb_refl. split; [lia | reflexivity].
      + destruct (Nat.eqb_spec p m); [congruence|].
        destruct (Nat.eqb_spec p i); [congruence|]. split; [lia | reflexivity]. }
  destruct Hp1 as [Hrange Hrow].
  assert (Hz1 : forall j, j < n -> is_zero (get2 aug1 p1 j)).
  { intros j Hj. unfold get2. rewrite Hrow. now apply Hzero. }
  assert (Hne : p1 <> i).
  { intros Heq. rewrite Heq in Hz1.
    rewrite (zero_small L _ (Hz1 i Hi)) in Hpiv. discriminate. }
  exists p1. split; [lia|]. split; [lia|].
  intros j Hj. rewrite Hget.
  destruct (Nat.ltb i p1 && Nat.ltb p1 n && Nat.leb i j && Nat.leb j n) eqn:Hcond;
    [|now apply Hz1].
  apply andb_prop in Hcond as [Hcond _]. apply andb_prop in Hcond as [_ Hij].
  apply Nat.leb_le in Hij.
  apply (zero_eliminated L).
  - now apply Hz1.
  - now apply Hz1.
  - apply Hreg; lia.
  - exact Hpiv.
  - apply Hreg; lia.
Qed.

Lemma pivot_rows_regular_step (n i : nat) (aug aug1 : list (list F)) :
  pivot_rows_regular regular n i aug ->
  elim_step n i aug = Some aug1 ->
  pivot_rows_regular regular n (S i) aug1.
Proof.
  intros Hreg Hstep k aug' Hfwd Hk j Hj.
  replace (S i + k) with (i + S k) in * by lia.
  apply (Hreg (S k) aug'); [|lia | lia].
  simpl. rewrite Hstep. exact Hfwd.
Qed.

Lemma forward_zero_row (n : nat) (len i : nat) (aug : list (list F)) (p : nat) :
  shaped n (S n) aug -> i + len = n ->
  i <= p -> zero_row is_zero n aug p ->
  pivot_rows_regular regular n i aug ->
  forward n (seq i len) aug = None.
Proof.
  revert i aug p; induction len as [|len IH]; intros i aug p Haug Hlen Hip Hz Hreg.
  - destruct Hz as [Hp _]; lia.
  - simpl. destruct (elim_step n i aug) as [aug1|] eqn:Hstep; [|reflexivity].
    assert (Hrow : forall j, i <= j < n ->
              regular (get2 (swap_rows aug i (select_pivot n aug i)) i j)).
    { intros j Hj. pose proof (Hreg 0 aug eq_refl) as H0.
      rewrite Nat.add_0_r in H0. apply H0; lia. }
    destruct (elim_step_zero_row Haug (i := i) ltac:(lia) Hip Hz Hrow Hstep)
      as [H1 [p' [Hp' Hz']]].
    apply (IH (S i) aug1 p' H1); [lia | exact Hp' | exact Hz' |].
    now apply (pivot_rows_regular_step Hreg).
Qed.

End ZeroRows.

(** * Exact arithmetic *)

Section ExactArithmetic.

Context {F : Type} {N : Number F} (E : Exact N).

Add Field number_field : (exact_field E).

Lemma for_range_sum (lo hi : nat) (f : nat -> F) (s0 : F) :
  for_range lo hi (fun j s => (s + f j)%num) s0
  = (s0 + sum_range lo hi f)%num.
Proof.
  unfold sum_range. destruct (le_lt_dec lo hi) as [Hle|Hlt].
  - induction Hle as [|hi Hle IH].
    + rewrite !for_range_empty by lia; ring.
    + rewrite !for_range_last by exact Hle. rewrite IH; ring.
  - rewrite !for_range_empty by lia; ring.
Qed.

Lemma sum_range_empty (lo hi : nat) (f : nat -> F) :
  hi <= lo -> sum_range lo hi f = 0%num.
Proof.
  intros H; unfold sum_range; now rewrite for_range_empty.
Qed.

Lemma sum_range_last (lo hi : nat) (f : nat -> F) :
  lo <= hi -> sum_range lo (S hi) f = (sum_range lo hi f + f hi)%num.
Proof.
  intros H; unfold sum_range; now rewrite for_range_last.
Qed.

Lemma sum_range_first (lo hi : nat) (f : nat -> F) :
  lo < hi -> sum_range lo hi f = (f lo + sum_range (S lo) hi f)%num.
Proof.
  intros H; unfold sum_range at 1. rewrite for_range_first by exact H.
  rewrite for_range_sum; ring.
Qed.

Lemma sum_range_split (lo mid hi : nat) (f : nat -> F) :
  lo <= mid -> mid <= hi ->
  sum_range lo hi f = (sum_range lo mid f + sum_range mid hi f)%num.
Proof.
  intros Hlm Hmh; induction Hmh as [|hi Hmh IH].
  - rewrite (sum_range_empty f (Nat.le_refl mid)); ring.
  - rewrite !sum_range_last by lia. rewrite IH; ring.
Qed.

Lemma sum_range_zero (lo hi : nat) (f : nat -> F) :
  (forall j, lo <= j < hi -> f j = 0%num) -> sum_range lo hi f = 0%num.
Proof.
  intros Hf; destruct (le_lt_dec lo hi) as [Hle|Hlt].
  - induction Hle as [|hi Hle IH].
    + now apply sum_range_empty.
    + rewrite sum_range_last by exact Hle.
      rewrite IH by (intros j Hj; apply Hf; lia). rewrite Hf by lia; ring.
  - apply sum_range_empty; lia.
Qed.

Lemma sum_range_combine (lo hi : nat) (f g : nat -> F) (c : F) :
  sum_range lo hi (fun j => (f j - c * g j)%num)
  = (sum_range lo hi f - c * sum_range lo hi g)%num.
Proof.
  destruct (le_lt_dec lo hi) as [Hle|Hlt].
  - induction Hle as [|hi Hle IH].
    + rewrite !sum_range_empty by lia; ring.
    + rewrite !sum_range_last by exact Hle. rewrite IH; ring.
  - rewrite !sum_range_empty by lia; ring.
Qed.

(** A sum whose terms vanish away from [k] is its term at [k]. *)
Lemma sum_range_single (lo hi k : nat) (f : nat -> F) :
  lo <= k < hi ->
  (forall j, lo <= j < hi -> j <> k -> f j = 0%num) ->
  sum_range lo hi f = f k.
Proof.
  intros Hk Hf.
  rewrite (sum_range_split f (mid := k)) by lia.
  rewrite (sum_range_first (lo := k)) by lia.
  rewrite (sum_range_zero (lo := lo)) by (intros j Hj; apply Hf; lia).
  rewrite (sum_range_zero (lo := S k)) by (intros j Hj; apply Hf; lia).
  ring.
Qed.

(** ** Gaussian elimination *)

Lemma satisfies_swap_rows (n : nat) (aug : list (list F)) (i m : nat) (x : list F) :
  shaped n (S n) aug -> i < n -> m < n ->
  satisfies n (swap_rows aug i m) x -> satisfies n aug x.
Proof.
  intros Haug Hi Hm Hsat k Hk. unfold satisfies, get2 in *.
  destruct (Nat.eq_dec k i) as [->|Hki].
  - specialize (Hsat m Hm). rewrite (row_swap_rows m Haug Hi Hm) in Hsat.
    now rewrite Nat.eqb_refl in Hsat.
  - destruct (Nat.eq_dec k m) as [->|Hkm].
    + specialize (Hsat i Hi). rewrite (row_swap_rows i Haug Hi Hm) in Hsat.
      rewrite Nat.eqb_refl in Hsat.
      destruct (Nat.eqb_spec i m); [congruence | exact Hsat].
    + specialize (Hsat k Hk). rewrite (row_swap_rows k Haug Hi Hm) in Hsat.
      destruct (Nat.eqb_spec k m); [congruence|].
      destruct (Nat.eqb_spec k i); [congruence | exact Hsat].
Qed.

Lemma eliminated_swap_rows (n : nat) (aug : list (list F)) (i m : nat) :
  shaped n (S n) aug -> i < n -> i <= m < n ->
  eliminated n i aug -> eliminated n i (swap_rows aug i m).
Proof.
  intros Haug Hi Hm Hel k j Hji Hjk Hk. unfold get2.
  rewrite (row_swap_rows k Haug Hi (proj2 Hm)).
  destruct (Nat.eqb_spec k m); [apply Hel; lia|].
  destruct (Nat.eqb_spec k i); apply Hel; lia.
Qed.

Lemma pivots_swap_rows (n : nat) (aug : list (list F)) (i m : nat) :
  shaped n (S n) aug -> i < n -> i <= m < n ->
  pivots_nonzero i aug -> pivots_nonzero i (swap_rows aug i m).
Proof.
  intros Haug Hi Hm Hp k Hk. unfold get2.
  rewrite (row_swap_rows k Haug Hi (proj2 Hm)).
  destruct (Nat.eqb_spec k m); [lia|].
  destruct (Nat.eqb_spec k i); [lia|]. now apply Hp.
Qed.

Lemma satisfies_eliminate (n : nat) (aug : list (list F)) (i : nat) (x : list F) :
  shaped n (S n) aug -> i < n -> eliminated n i aug ->
  satisfies n (eliminate n i aug) x -> satisfies n aug x.
Proof.
  intros Haug Hi Hel Hsat.
  destruct (eliminate_spec Haug Hi) as [_ Hget].
  assert (Hrow_i : dot n (row aug i) x = get2 aug i n).
  { transitivity (get2 (eliminate n i aug) i n);
      [|rewrite Hget, Nat.ltb_irrefl; reflexivity].
    rewrite <- (Hsat i Hi).
    unfold dot, sum_over. apply sum_range_ext; intros j Hj.
    change (get (row (eliminate n i aug) i) j) with (get2 (eliminate n i aug) i j).
    rewrite Hget, Nat.ltb_irrefl; reflexivity. }
  intros k Hk. destruct (le_lt_dec k i) as [Hle|Hlt].
  - assert (Hik : Nat.ltb i k = false) by (apply Nat.ltb_ge; lia).
    transitivity (get2 (eliminate n i aug) k n);
      [|rewrite Hget, Hik; reflexivity].
    rewrite <- (Hsat k Hk).
    unfold dot, sum_over. apply sum_range_ext; intros j Hj.
    change (get (row (eliminate n i aug) k) j) with (get2 (eliminate n i aug) k j).
    rewrite Hget.
    replace (Nat.ltb i k) with false by (symmetry; apply Nat.ltb_ge; lia).
    reflexivity.
  - set (f := (get2 aug k i / get2 aug i i)%num).
    assert (Hentry : forall j, j <= n ->
              get2 (eliminate n i aug) k j = (get2 aug k j - f * get2 aug i j)%num).
    { intros j Hj. rewrite Hget.
      replace (Nat.ltb i k) with true by (symmetry; apply Nat.ltb_lt; lia).
      replace (Nat.ltb k n) with true by (symmetry; apply Nat.ltb_lt; lia).
      replace (Nat.leb j n) with true by (symmetry; apply Nat.leb_le; lia).
      simpl. destruct (Nat.leb_spec i j); simpl; [reflexivity|].
      rewrite (Hel k j), (Hel i j) by lia. ring. }
    pose proof (Hsat k Hk) as Hk'. rewrite (Hentry n (Nat.le_refl n)) in Hk'.
    assert (Hdot : dot n (row (eliminate n i aug) k) x
                   = (dot n (row aug k) x - f * dot n (row aug i) x)%num).
    { unfold dot, sum_over. rewrite <- sum_range_combine.
      apply sum_range_ext; intros j Hj.
      change (get (row (eliminate n i aug) k) j) with (get2 (eliminate n i aug) k j).
      rewrite Hentry by lia. unfold get2. ring. }
    rewrite Hdot, Hrow_i in Hk'.
    replace (dot n (row aug k) x)
      with ((dot n (row aug k) x - f * get2 aug i n) + f * get2 aug i n)%num by ring.
    rewrite Hk'. ring.
Qed.

(** One step of elimination keeps the shape, clears one more column, keeps
    the pivots found so far, and only loses no solution. *)
Lemma elim_step_exact (n i : nat) (aug aug' : list (list F)) :
  shaped n (S n) aug -> i < n ->
  eliminated n i aug -> pivots_nonzero i aug ->
  elim_step n i aug = Some aug' ->
  shaped n (S n) aug' /\ eliminated n (S i) aug' /\ pivots_nonzero (S i) aug' /\
  forall x, satisfies n aug' x -> satisfies n aug x.
Proof.
  intros Haug Hi Hel Hpiv Hstep.
  apply elim_step_some in Hstep as [Hp ->]. unfold pivot in Hp.
  pose proof (select_pivot_range aug Hi) as Hm.
  set (m := select_pivot n aug i) in *.
  pose proof (shaped_swap_rows Haug Hi (proj2 Hm)) as Haug1.
  pose proof (eliminated_swap_rows Haug Hi Hm Hel) as Hel1.
  pose proof (pivots_swap_rows Haug Hi Hm Hpiv) as Hpiv1.
  set (aug1 := swap_rows aug i m) in *.
  apply (exact_pivot E) in Hp.
  destruct (eliminate_spec Haug1 Hi) as [Hs Hget].
  split; [exact Hs|]. split; [|split].
  - intros k j Hj Hjk Hk. rewrite Hget.
    destruct (Nat.ltb_spec i k) as [Hik|Hik]; simpl.
    + replace (Nat.ltb k n) with true by (symmetry; apply Nat.ltb_lt; lia).
      replace (Nat.leb j n) with true by (symmetry; apply Nat.leb_le; lia).
      simpl. destruct (Nat.leb_spec i j) as [Hij|Hij]; simpl.
      * assert (j = i) as -> by lia. field. exact Hp.
      * apply Hel1; lia.
    + apply Hel1; lia.
  - intros k Hk. rewrite Hget.
    replace (Nat.ltb i k) with false by (symmetry; apply Nat.ltb_ge; lia); simpl.
    destruct (Nat.eq_dec k i) as [->|Hne]; [exact Hp | apply Hpiv1; lia].
  - intros x Hsat.
    apply (satisfies_swap_rows Haug Hi (proj2 Hm)).
    apply (satisfies_eliminate Haug1 Hi Hel1 Hsat).
Qed.

Lemma forward_exact (n : nat) (len i : nat) (aug aug' : list (list F)) :
  shaped n (S n) aug -> i + len <= n ->
  eliminated n i aug -> pivots_nonzero i aug ->
  forward n (seq i len) aug = Some aug' ->
  shaped n (S n) aug' /\ eliminated n (i + len) aug' /\
  pivots_nonzero (i + len) aug' /\
  forall x, satisfies n aug' x -> satisfies n aug x.
Proof.
  revert i aug; induction len as [|len IH]; intros i aug Haug Hle Hel Hpiv Hfwd.
  - simpl in Hfwd; inversion Hfwd; subst aug'. rewrite Nat.add_0_r.
    split; [exact Haug|]. split; [exact Hel|]. split; [exact Hpiv|]. auto.
  - simpl in Hfwd. destruct (elim_step n i aug) as [aug1|] eqn:Hstep; [|discriminate].
    destruct (elim_step_exact Haug (i := i) ltac:(lia) Hel Hpiv Hstep)
      as [H1 [H2 [H3 H4]]].
    destruct (IH (S i) aug1 H1 ltac:(lia) H2 H3 Hfwd) as [K1 [K2 [K3 K4]]].
    replace (i + S len) with (S i + len) by lia.
    split; [exact K1|]. split; [exact K2|]. split; [exact K3|].
    intros x Hx; apply H4, K4, Hx.
Qed.

(** On a triangular system with non-zero diagonal, back substitution solves
    every equation. *)
Lemma back_substitute_exact (n : nat) (aug : list (list F)) (x0 : list F) :
  length x0 = n -> eliminated n n aug -> pivots_nonzero n aug ->
  satisfies n aug (back_substitute n aug x0).
Proof.
  intros Hlen Hel Hpiv k Hk.
  destruct (back_substitute_spec aug x0 Hlen) as [_ Hx].
  set (x := back_substitute n aug x0) in *.
  unfold dot, sum_over.
  rewrite (sum_range_split _ (mid := k)) by lia.
  rewrite (sum_range_first (lo := k)) by lia.
  rewrite (sum_range_zero (lo := 0) (hi := k)).
  - rewrite (Hx k Hk) at 1.
    change (get (row aug k) k) with (get2 aug k k).
    change (get (row aug k) n) with (get2 aug k n).
    specialize (Hpiv k Hk).
    set (T := sum_range (S k) n (fun j => (get (row aug k) j * get x j)%num)).
    change (sum_range (S k) n (fun j => (get2 aug k j * get x j)%num)) with T.
    field. exact Hpiv.
  - intros j Hj. change (get (row aug k) j) with (get2 aug k j).
    rewrite Hel by lia. ring.
Qed.

(** In exact arithmetic zero is the only zero and every number is regular. *)
Lemma exact_zero_laws : ZeroLaws N (fun x => x = 0%num) (fun _ => True).
Proof.
  constructor.
  - intros z ->. exact (exact_zero_small E).
  - intros zi zj p a -> -> _ Hp _. apply (exact_pivot E) in Hp. field. exact Hp.
Qed.

(** ** The augmented matrix *)

Lemma length_map_indexed {A B : Type} (f : A -> nat -> B) (i0 : nat) (a : list A) :
  length (map_indexed f i0 a) = length a.
Proof.
  revert i0; induction a as [|h t IH]; intros i0; simpl; auto.
Qed.

Lemma nth_map_indexed {A B : Type} (f : A -> nat -> B) (i0 : nat) (a : list A)
    (k : nat) (d : B) (d' : A) :
  k < length a -> nth k (map_indexed f i0 a) d = f (nth k a d') (i0 + k).
Proof.
  revert i0 k; induction a as [|h t IH]; intros i0 [|k] Hk; simpl in *; try lia.
  - now rewrite Nat.add_0_r.
  - rewrite IH by lia. f_equal; lia.
Qed.

Lemma row_augment (n : nat) (A : list (list F)) (b : list F) (k : nat) :
  length b = n -> k < n ->
  row (augment A b) k = row A k ++ [get b k].
Proof.
  intros Hb Hk. unfold augment, row at 1.
  rewrite (nth_map_indexed _ 0 b [] undefined) by lia. reflexivity.
Qed.

Lemma shaped_augment (n : nat) (A : list (list F)) (b : list F) :
  square n A -> length b = n -> shaped n (S n) (augment A b).
Proof.
  intros HA Hb; split.
  - unfold augment; now rewrite length_map_indexed.
  - apply Forall_forall; intros r Hr.
    destruct (In_nth _ _ [] Hr) as [k [Hk <-]].
    unfold augment in Hk; rewrite length_map_indexed in Hk.
    change (nth k (augment A b) []) with (row (augment A b) k).
    rewrite Hb in Hk. rewrite (@row_augment n A b k Hb Hk).
    rewrite length_app, (shaped_row HA Hk). simpl; lia.
Qed.

Lemma get2_augment_left (n : nat) (A : list (list F)) (b : list F) (k j : nat) :
  square n A -> length b = n -> k < n -> j < n ->
  get2 (augment A b) k j = get2 A k j.
Proof.
  intros HA Hb Hk Hj. unfold get2. rewrite (@row_augment n A b k Hb Hk).
  unfold get. apply app_nth1. rewrite (shaped_row HA Hk); exact Hj.
Qed.

Lemma get2_augment_right (n : nat) (A : list (list F)) (b : list F) (k : nat) :
  square n A -> length b = n -> k < n ->
  get2 (augment A b) k n = get b k.
Proof.
  intros HA Hb Hk. unfold get2. rewrite (@row_augment n A b k Hb Hk).
  unfold get at 1. rewrite app_nth2 by (rewrite (shaped_row HA Hk); lia).
  rewrite (shaped_row HA Hk), Nat.sub_diag. reflexivity.
Qed.

Lemma satisfies_augment (n : nat) (A : list (list F)) (b x : list F) :
  square n A -> length b = n ->
  satisfies n (augment A b) x -> is_solution n A b x.
Proof.
  intros HA Hb Hsat k Hk.
  rewrite <- (@get2_augment_right n A b k HA Hb Hk), <- (Hsat k Hk).
  unfold dot, sum_over. apply sum_range_ext; intros j Hj.
  change (get (row A k) j) with (get2 A k j).
  change (get (row (augment A b) k) j) with (get2 (augment A b) k j).
  rewrite (@get2_augment_left n A b k j HA Hb Hk) by lia. reflexivity.
Qed.

End ExactArithmetic.

(** The rationals are an exact instance. *)
Lemma rational_exact : Exact Rational.number.
Proof.
  constructor; simpl.
  - constructor.
    + exact Qcrt.
    + discriminate.
    + intros p q. change ((p / q)%Qc = (p * (1 / q))%Qc).
      unfold Qcdiv. ring.
    + intros p Hp. change (((1 / p) * p)%Qc = 1%Qc). field. exact Hp.
  - intros x y; unfold Rational.eq_bool; rewrite Qeq_bool_iff; split.
    + apply Qc_is_canon.
    + intros ->; reflexivity.
  - reflexivity.
  - intros x H ->. vm_compute in H. discriminate.
  - intros x H ->. vm_compute in H. discriminate.
  - intros x H. apply negb_false_iff in H.
    unfold Rational.eq_bool in H. apply Qeq_bool_iff in H.
    apply Qc_is_canon. exact H.
Qed.

(** * The linear solver *)

(** In binary64 the zeros are [+0] and [-0], and the regular numbers are the
    finite ones. *)
Lemma binary64_zero_laws :
  ZeroLaws Binary64.number Binary64.is_zero Binary64.is_finite.
Proof.
  assert (Htol : Prim2SF (lit_1e_10 (F := float))
                 = S754_finite false 7737125245533627 (-86))
    by (vm_compute; reflexivity).
  constructor; simpl.
  - intros z Hz. unfold Binary64.is_zero in Hz.
    rewrite ltb_spec, abs_spec. simpl in Htol. rewrite Htol.
    destruct (Prim2SF z); try contradiction. reflexivity.
  - intros zi zj p a Hzi Hzj Hp Hsmall Ha.
    unfold Binary64.is_zero, Binary64.is_finite in *.
    rewrite ltb_spec, abs_spec in Hsmall. simpl in Htol. rewrite Htol in Hsmall.
    rewrite sub_spec, mul_spec, div_spec.
    destruct (Prim2SF zi) as [s1| | |]; try contradiction.
    destruct (Prim2SF zj) as [s2| | |]; try contradiction.
    destruct (Prim2SF p) as [sp| | |sp mp ep]; try contradiction.
    + discriminate.
    + destruct (Prim2SF a) as [sa| | |sa ma ea]; try contradiction;
        destruct s1, s2, sp, sa; exact I.
Qed.

(** C6: [solveLinearSystem] returns [null] exactly when some elimination step
    [k] meets, after the row selection, a pivot whose magnitude is below 1e-10
    (in any arithmetic, binary64 included); and a matrix that contains an
    all-zero row ends that way, whatever the right-hand side, as long as
    every pivot row is regular when it is used.  With [binary64_zero_laws]
    regular means finite; with [exact_zero_laws] every number is regular. *)
Theorem solve_none_iff_small_pivot
    (F : Type) (N : Number F) (is_zero regular : F -> Prop)
    (A : list (list F)) (b : list F) (n : nat) :
  square n A -> length b = n ->
  (solveLinearSystem A b = None <-> exists k, small_pivot_at n (augment A b) k) /\
  (ZeroLaws N is_zero regular ->
   forall p, zero_row is_zero n A p ->
     pivot_rows_regular regular n 0 (augment A b) ->
     solveLinearSystem A b = None).
Proof.
  intros HA Hb. pose proof (proj1 HA) as HlenA. split.
  - rewrite solveLinearSystem_none_iff, HlenA. reflexivity.
  - intros L p [Hp Hzero] Hreg.
    rewrite solveLinearSystem_unfold, HlenA.
    rewrite (@forward_zero_row F N is_zero regular L n n 0 (augment A b) p); auto.
    + now apply shaped_augment.
    + lia.
    + split; [exact Hp|]. intros j Hj.
      rewrite (@get2_augment_left F N n A b p j HA Hb Hp Hj). now apply Hzero.
Qed.

Lemma solve_none_iff_small_pivot_witness :
  solveLinearSystem Example.deficient Example.deficient_rhs = None.
Proof.
  refine (proj2 (@solve_none_iff_small_pivot float Binary64.number
                   Binary64.is_zero Binary64.is_finite
                   Example.deficient Example.deficient_rhs 2 _ _)
            binary64_zero_laws 1 _ _).
  - split; [reflexivity | repeat constructor].
  - reflexivity.
  - split; [lia|]. intros [|[|j]] Hj; [exact I | exact I | lia].
  - intros [|[|k]] aug' Hfwd Hk j Hj; [| |simpl in Hk; lia].
    + inversion Hfwd; subst aug'.
      destruct j as [|[|j]]; [exact I | exact I | simpl in Hj; lia].
    + vm_compute in Hfwd. inversion Hfwd; subst aug'.
      destruct j as [|[|j]]; [simpl in Hj; lia | exact I | simpl in Hj; lia].
Defined.

(** In exact arithmetic an all-zero row always ends in [null]. *)
Lemma solve_zero_row_exact
    (F : Type) (N : Number F) (E : Exact N)
    (A : list (list F)) (b : list F) (n p : nat) :
  square n A -> length b = n ->
  zero_row (fun x => x = 0%num) n A p ->
  solveLinearSystem A b = None.
Proof.
  intros HA Hb [Hp Hzero]. pose proof (proj1 HA) as HlenA.
  rewrite solveLinearSystem_unfold, HlenA.
  assert (Hfwd : forward n (seq 0 n) (augment A b) = None).
  { eapply (forward_zero_row (exact_zero_laws E)) with (p := p).
    - now apply shaped_augment.
    - lia.
    - lia.
    - split; [exact Hp|]. intros j Hj.
      rewrite (@get2_augment_left F N n A b p j HA Hb Hp Hj). now apply Hzero.
    - intros k aug' _ _ j _. exact I. }
  now rewrite Hfwd.
Qed.

Lemma solve_zero_row_exact_example :
  solveLinearSystem Example.singular Example.regular_rhs = None.
Proof.
  apply (@solve_zero_row_exact Qc Rational.number rational_exact
           Example.singular Example.regular_rhs 2 1).
  - split; [reflexivity | repeat constructor].
  - reflexivity.
  - split; [lia|]. intros [|[|j]] Hj; [reflexivity | reflexivity | lia].
Qed.

(** In binary64 an all-zero row does not force [null].  All entries of
    [Example.overflowing] are finite and its third row is zero; step 0 adds
    1.7e308 to 1.7e308 in the second row, which overflows to infinity; step 1
    multiplies the factor [0 / infinity = 0] by infinity, so the zero row
    becomes NaN; and a NaN pivot passes the test [Math.abs(p) < 1e-10]. *)
Lemma solve_zero_row_binary64_returns_vector :
  square 3 Example.overflowing /\
  length Example.overflowing_rhs = 3 /\
  zero_row Binary64.is_zero 3 Example.overflowing 2 /\
  solveLinearSystem Example.overflowing Example.overflowing_rhs
  = Some [nan; nan; nan].
Proof.
  split; [split; [reflexivity | repeat constructor]|].
  split; [reflexivity|]. split.
  - split; [lia|]. intros [|[|[|j]]] Hj; try exact I; lia.
  - vm_compute; reflexivity.
Qed.

(** Whatever vector the solver returns solves the system, in exact
    arithmetic. *)
Lemma solve_some_exact
    (F : Type) (N : Number F) (E : Exact N)
    (A : list (list F)) (b x : list F) (n : nat) :
  square n A -> length b = n ->
  solveLinearSystem A b = Some x ->
  length x = n /\ is_solution n A b x.
Proof.
  intros HA Hb Hsolve. pose proof (proj1 HA) as HlenA.
  rewrite solveLinearSystem_unfold, HlenA in Hsolve.
  destruct (forward n (seq 0 n) (augment A b)) as [aug|] eqn:Hfwd; [|discriminate].
  inversion Hsolve; subst x; clear Hsolve.
  destruct (@forward_exact F N E n n 0 (augment A b) aug) as [H1 [H2 [H3 H4]]].
  - now apply shaped_augment.
  - lia.
  - intros k j Hj; lia.
  - intros k Hk; lia.
  - exact Hfwd.
  - split.
    + apply back_substitute_spec, repeat_length.
    + eapply satisfies_augment; [exact HA | exact Hb |]. apply H4.
      apply back_substitute_exact;
        [exact E | apply repeat_length | exact H2 | exact H3].
Qed.

Lemma solve_some_length
    (F : Type) (N : Number F) (A : list (list F)) (b x : list F) :
  solveLinearSystem A b = Some x -> length x = length A.
Proof.
  rewrite solveLinearSystem_unfold.
  destruct (forward _ _ _) as [aug|]; [|discriminate].
  intros Hx; inversion Hx. apply back_substitute_spec, repeat_length.
Qed.

(** C5: on an [n] by [n] matrix on which elimination never meets a pivot
    below tolerance, [solveLinearSystem] returns a vector [x] of length [n]
    (in any arithmetic, binary64 included), and in exact arithmetic
    [A x = b]. *)
Theorem solve_returns_solution
    (F : Type) (N : Number F) (A : list (list F)) (b : list F) (n : nat) :
  square n A -> length b = n ->
  (forall k, ~ small_pivot_at n (augment A b) k) ->
  exists x, solveLinearSystem A b = Some x /\ length x = n /\
            (Exact N -> is_solution n A b x).
Proof.
  intros HA Hb Hpivots.
  destruct (solveLinearSystem A b) as [x|] eqn:Hsolve.
  - exists x. split; [reflexivity|]. split.
    + apply solve_some_length in Hsolve. rewrite Hsolve. exact (proj1 HA).
    + intros E. eapply solve_some_exact; eassumption.
  - exfalso. rewrite solveLinearSystem_none_iff, (proj1 HA) in Hsolve.
    destruct Hsolve as [k Hk]. exact (Hpivots k Hk).
Qed.

Lemma solve_returns_solution_witness :
  exists x, solveLinearSystem Example.regular Example.regular_rhs = Some x /\
            length x = 2 /\
            is_solution 2 Example.regular Example.regular_rhs x.
Proof.
  destruct (@solve_returns_solution Qc Rational.number
              Example.regular Example.regular_rhs 2) as [x [Hx [Hlen Hsol]]].
  - split; [reflexivity | repeat constructor].
  - reflexivity.
  - intros k Hk.
    assert (solveLinearSystem Example.regular Example.regular_rhs = None) as Hnone
      by (apply solveLinearSystem_none_iff; exists k; exact Hk).
    vm_compute in Hnone. discriminate.
  - exists x. split; [exact Hx|]. split; [exact Hlen | exact (Hsol rational_exact)].
Defined.

(** In binary64 the residual is not within 1e-6.  For [7 x = 5e14] no pivot
    is small and the solver returns [x = 5e14 / 7] rounded, which is
    4571428571428571 / 64; [7 x - 5e14] tests above 1e-6 when computed in
    binary64, and is exactly -3/64. *)
Lemma solve_binary64_residual_exceeds_tolerance :
  square 1 Example.seven /\
  length Example.seven_rhs = 1 /\
  (forall k, ~ small_pivot_at 1 (augment Example.seven Example.seven_rhs) k) /\
  solveLinearSystem Example.seven Example.seven_rhs = Some [Example.seven_root] /\
  ~ within_tolerance 1 Example.seven Example.seven_rhs [Example.seven_root] lit_1e_6 /\
  Binary64.to_Q Example.seven_root = Some (4571428571428571 # 64)%Q /\
  (7 * (4571428571428571 # 64) - 500000000000000 == - (3 # 64))%Q.
Proof.
  split; [split; [reflexivity | repeat constructor]|].
  split; [reflexivity|]. split; [|split; [|split; [|split]]].
  - intros k Hk.
    assert (solveLinearSystem Example.seven Example.seven_rhs = None) as Hnone
      by (apply solveLinearSystem_none_iff; exists k; exact Hk).
    vm_compute in Hnone. discriminate.
  - vm_compute; reflexivity.
  - intros Hres. specialize (Hres 0 (Nat.lt_0_succ 0)).
    vm_compute in Hres. discriminate.
  - vm_compute; reflexivity.
  - reflexivity.
Qed.

(** * The price system *)

(** C1: [calculateSraffianPrices] solves the system whose matrix [S] reads the
    coefficient matrix transposed: [S[row][col]] is [1 - (1+r) A[col][row]] on
    the diagonal and [-(1+r) A[col][row]] off it, where [A[i][j]] is
    [inputMatrix[i][j] / totalOutputs[j]], and 0 when [totalOutputs[j]] is 0. *)
Theorem sraffian_system_matrix_transposed
    (F : Type) (N : Number F)
    (inputMatrix : list (list F)) (laborVector totalOutputs : list F) (r w : F)
    (n row col : nat) :
  length totalOutputs = n -> square n inputMatrix -> row < n -> col < n ->
  let A := coefficients inputMatrix totalOutputs in
  let S := system_matrix A n r in
  calculateSraffianPrices inputMatrix laborVector totalOutputs r w
  = match solveLinearSystem S (unit_labor laborVector totalOutputs w) with
    | None => {| prices := []; isValid := false |}
    | Some P => {| prices := P;
                   isValid := forallb (fun p => gtb p (- lit_1e_6)%num) P |}
    end /\
  square n S /\
  get2 S row col
  = (if Nat.eqb row col then (1 - (1 + r) * get2 A col row)%num
     else (- (1 + r) * get2 A col row)%num) /\
  get2 A col row
  = (if eqb (get totalOutputs row) 0%num then 0%num
     else (get2 inputMatrix col row / get totalOutputs row)%num).
Proof.
  intros Hn Hsq Hrow Hcol A S. subst n. split; [reflexivity|]. split; [|split].
  - apply system_matrix_square.
  - unfold S. rewrite system_matrix_entry by assumption. reflexivity.
  - unfold A. rewrite coefficients_entry by assumption. reflexivity.
Qed.

Lemma sraffian_system_matrix_transposed_witness :
  let A := coefficients Example.INITIAL_MATRIX [575; 20]%float in
  let S := system_matrix A 2 Example.initial_rate in
  get2 S 0 1 = (- (1 + Example.initial_rate) * get2 A 1 0)%num /\
  get2 A 1 0 = (12 / 575)%float.
Proof.
  destruct (@sraffian_system_matrix_transposed float Binary64.number
              Example.INITIAL_MATRIX [18; 12]%float [575; 20]%float
              Example.initial_rate 1%float 2 0 1)
    as [_ [_ [HS HA]]].
  - reflexivity.
  - split; [reflexivity | repeat constructor].
  - lia.
  - lia.
  - split; [exact HS | exact HA].
Defined.

(** C3: on dimension-consistent inputs [calculateSraffianPrices] returns the
    empty vector with [isValid = false] exactly when the solver reports no
    solution; otherwise it returns the solver's vector unchanged, flagged
    valid exactly when every entry is above -1e-6, and returned whatever the
    flag. *)
Theorem sraffian_prices_outcomes
    (F : Type) (N : Number F)
    (inputMatrix : list (list F)) (laborVector totalOutputs : list F) (r w : F) :
  square (length totalOutputs) inputMatrix ->
  let S := system_matrix (coefficients inputMatrix totalOutputs)
             (length totalOutputs) r in
  let l := unit_labor laborVector totalOutputs w in
  let result := calculateSraffianPrices inputMatrix laborVector totalOutputs r w in
  (result = {| prices := []; isValid := false |} <-> solveLinearSystem S l = None) /\
  (forall P, solveLinearSystem S l = Some P ->
     prices result = P /\
     (isValid result = true <-> forall p, In p P -> gtb p (- lit_1e_6)%num = true)).
Proof.
  intros _ S l result. unfold result, calculateSraffianPrices.
  fold S. fold l. destruct (solveLinearSystem S l) as [P|]; split.
  - split; [|discriminate]. intros H; inversion H as [[HP Hv]].
    subst P; simpl in Hv; discriminate.
  - intros P' HP'; inversion HP'; subst P'. simpl. split; [reflexivity|].
    apply forallb_forall.
  - split; reflexivity.
  - intros P HP; discriminate.
Qed.

Lemma sraffian_prices_outcomes_witness :
  let result :=
    calculateSraffianPrices Example.INITIAL_MATRIX [18; 12]%float [575; 20]%float
      Example.initial_rate 1%float in
  exists P,
    solveLinearSystem
      (system_matrix (coefficients Example.INITIAL_MATRIX [575; 20]%float) 2
         Example.initial_rate)
      (unit_labor [18; 12]%float [575; 20]%float 1%float) = Some P /\
    prices result = P /\
    (isValid result = true <-> forall p, In p P -> gtb p (- lit_1e_6)%num = true).
Proof.
  destruct (@sraffian_prices_outcomes float Binary64.number
              Example.INITIAL_MATRIX [18; 12]%float [575; 20]%float
              Example.initial_rate 1%float) as [_ H].
  - split; [reflexivity | repeat constructor].
  - eexists. split; [vm_compute; reflexivity|].
    apply H. vm_compute; reflexivity.
Defined.

(** C10: for the empty system [calculateSraffianPrices] returns the empty
    price vector with [isValid = true], the solver returning the empty
    solution; the singular outcome carries the same empty vector and differs
    by the flag alone. *)
Theorem sraffian_prices_empty_system (F : Type) (N : Number F) (r w : F) :
  solveLinearSystem (F := F) [] [] = Some [] /\
  calculateSraffianPrices [] [] [] r w = {| prices := []; isValid := true |} /\
  forall (inputMatrix : list (list F)) (laborVector totalOutputs : list F) (r' w' : F),
    square (length totalOutputs) inputMatrix ->
    solveLinearSystem
      (system_matrix (coefficients inputMatrix totalOutputs) (length totalOutputs) r')
      (unit_labor laborVector totalOutputs w') = None ->
    prices (calculateSraffianPrices inputMatrix laborVector totalOutputs r' w')
    = prices (calculateSraffianPrices [] [] [] r w) /\
    isValid (calculateSraffianPrices inputMatrix laborVector totalOutputs r' w')
    = false.
Proof.
  split; [reflexivity|]. split; [reflexivity|].
  intros inputMatrix laborVector totalOutputs r' w' _ Hnone.
  unfold calculateSraffianPrices at 1 3. rewrite Hnone. split; reflexivity.
Qed.

(** The singular outcome is met: one commodity that consumes all it produces,
    at [r = 0], has the system matrix [[0]]. *)
Lemma sraffian_prices_singular_example :
  calculateSraffianPrices Example.no_surplus_matrix [1%float] [1%float]
    0%float 1%float
  = {| prices := []; isValid := false |}.
Proof.
  vm_compute; reflexivity.
Qed.

(** * The eigenvalue estimator *)

Section EigenFacts.

Context {F : Type} {N : Number F} {Q : MathSqrt F}.

Lemma get_repeat (x : F) (n i : nat) : i < n -> get (repeat x n) i = x.
Proof.
  intros Hi. unfold get. erewrite nth_error_nth; [reflexivity|].
  now apply nth_error_repeat.
Qed.

Lemma get_map (f : F -> F) (a : list F) (i : nat) :
  i < length a -> get (map f a) i = f (get a i).
Proof.
  revert i; induction a as [|h t IH]; intros [|i] Hi; simpl in *; try lia.
  - reflexivity.
  - apply IH; lia.
Qed.

(** Two arrays of the same length with the same entries are the same. *)
Lemma array_ext (n : nat) (a b : list F) :
  length a = n -> length b = n ->
  (forall i, i < n -> get a i = get b i) -> a = b.
Proof.
  intros Ha Hb Hget. apply (nth_ext a b undefined undefined); [congruence|].
  intros i Hi. apply Hget; lia.
Qed.

(** The inner loop of the product accumulates one entry in place. *)
Lemma accumulate_entry (n : nat) (g : nat -> F) (w : list F) (i : nat) :
  i < length w ->
  let w' := for_range 0 n (fun j w => upd w i (get w i + g j)%num) w in
  length w' = length w /\
  forall i', get w' i'
             = if Nat.eqb i' i
               then for_range 0 n (fun j s => (s + g j)%num) (get w i)
               else get w i'.
Proof.
  intros Hi; cbv zeta.
  apply (for_range_invariant
           (fun k w' => length w' = length w /\
              forall i', get w' i'
                         = if Nat.eqb i' i
                           then for_range 0 k (fun j s => (s + g j)%num) (get w i)
                           else get w i')).
  - lia.
  - split; [reflexivity|]. intros i'.
    rewrite for_range_empty by lia. destruct (Nat.eqb_spec i' i); congruence.
  - intros k t Hk [Hlen Hget]. split; [now rewrite length_upd|].
    intros i'. rewrite get_upd by lia.
    destruct (Nat.eqb_spec i' i) as [->|Hne].
    + rewrite for_range_last by lia. rewrite Hget, Nat.eqb_refl. reflexivity.
    + rewrite Hget. destruct (Nat.eqb_spec i' i); [congruence | reflexivity].
Qed.

Lemma mat_vec_product (n : nat) (A : list (list F)) (v : list F) :
  mat_vec n A v = spec_product n A v.
Proof.
  unfold mat_vec.
  assert (length (for_range 0 n
                    (fun i w =>
                       for_range 0 n
                         (fun j w => upd w i (get w i + get2 A i j * get v j)%num) w)
                    (repeat 0%num n)) = n /\
          forall i, i < n ->
            get (for_range 0 n
                   (fun i w =>
                      for_range 0 n
                        (fun j w => upd w i (get w i + get2 A i j * get v j)%num) w)
                   (repeat 0%num n)) i
            = if Nat.ltb i n then dot n (row A i) v else 0%num) as [Hlen Hget].
  { apply (for_range_invariant
             (fun k w => length w = n /\
                forall i, i < n ->
                  get w i = if Nat.ltb i k then dot n (row A i) v else 0%num)
             (fun i w =>
                for_range 0 n
                  (fun j w => upd w i (get w i + get2 A i j * get v j)%num) w)
             (repeat 0%num n) (Nat.le_0_l n)).
    - split; [apply repeat_length|]. intros i Hi. now rewrite get_repeat.
    - intros k w Hk [Hlen Hget].
      destruct (@accumulate_entry n (fun j => (get2 A k j * get v j)%num) w k
                  ltac:(lia)) as [Hlen' Hget'].
      split; [lia|]. intros i Hi. rewrite Hget'.
      destruct (Nat.eqb_spec i k) as [->|Hne].
      + rewrite Hget by lia. rewrite Nat.ltb_irrefl.
        replace (Nat.ltb k (S k)) with true by (symmetry; apply Nat.ltb_lt; lia).
        reflexivity.
      + rewrite Hget by lia.
        destruct (Nat.ltb_spec i k), (Nat.ltb_spec i (S k)); try reflexivity; lia. }
  apply (array_ext (n := n)).
  - exact Hlen.
  - unfold spec_product. now rewrite length_map, length_seq.
  - intros i Hi. rewrite Hget by exact Hi.
    replace (Nat.ltb i n) with true by (symmetry; apply Nat.ltb_lt; lia).
    unfold spec_product, get. now rewrite nth_map_seq.
Qed.

Lemma length_spec_product (n : nat) (A : list (list F)) (v : list F) :
  length (spec_product n A v) = n.
Proof.
  unfold spec_product. now rewrite length_map, length_seq.
Qed.

(** Overwriting [v] entry by entry with [w[i] / norm] is [w / norm]. *)
Lemma normalize_in_place (n : nat) (v w : list F) (norm : F) :
  length v = n -> length w = n ->
  for_range 0 n (fun i v => upd v i (get w i / norm)%num) v
  = map (fun wi => (wi / norm)%num) w.
Proof.
  intros Hv Hw.
  assert (length (for_range 0 n (fun i v => upd v i (get w i / norm)%num) v) = n /\
          forall i, i < n ->
            get (for_range 0 n (fun i v => upd v i (get w i / norm)%num) v) i
            = if Nat.ltb i n then (get w i / norm)%num else get v i)
    as [Hlen Hget].
  { apply (for_range_invariant
             (fun k v' => length v' = n /\
                forall i, i < n ->
                  get v' i = if Nat.ltb i k then (get w i / norm)%num else get v i)
             (fun i v => upd v i (get w i / norm)%num) v (Nat.le_0_l n)).
    - split; [exact Hv | reflexivity].
    - intros k t Hk [Hlen Hget]. split; [now rewrite length_upd|].
      intros i Hi. rewrite get_upd by lia.
      destruct (Nat.eqb_spec i k) as [->|Hne].
      + replace (Nat.ltb k (S k)) with true by (symmetry; apply Nat.ltb_lt; lia).
        reflexivity.
      + rewrite Hget by lia.
        destruct (Nat.ltb_spec i k), (Nat.ltb_spec i (S k)); try reflexivity; lia. }
  apply (array_ext (n := n)).
  - exact Hlen.
  - now rewrite length_map.
  - intros i Hi. rewrite Hget by exact Hi.
    replace (Nat.ltb i n) with true by (symmetry; apply Nat.ltb_lt; lia).
    symmetry; apply get_map; lia.
Qed.

Lemma power_iteration_spec (n : nat) (A : list (list F)) (k : nat) (v : list F) :
  length v = n ->
  power_iteration n A k v
  = match spec_iterate n A k v with
    | None => Returned 0%num
    | Some v' => Running v'
    end.
Proof.
  revert v; induction k as [|k IH]; intros v Hv; simpl; [reflexivity|].
  rewrite mat_vec_product.
  change (euclidean_norm n (spec_product n A v))
    with (spec_norm n (spec_product n A v)).
  destruct (ltb (spec_norm n (spec_product n A v)) lit_1e_12); [reflexivity|].
  rewrite (@normalize_in_place n v (spec_product n A v) _ Hv
             (length_spec_product n A v)).
  apply IH. now rewrite length_map, length_spec_product.
Qed.

End EigenFacts.

(** C7: [getDominantEigenvalue] is the power iteration of the spec: 0 for
    [n = 0]; otherwise start from the vector of entries 1/sqrt(n), run 1000
    iterations, each computing [w = A v], returning 0 at once when the
    Euclidean norm of [w] is below 1e-12 and replacing [v] by [w / norm]
    otherwise, and return the Rayleigh quotient [v^T A v], not divided. *)
Theorem dominant_eigenvalue_follows_spec
    (F : Type) (N : Number F) (Q : MathSqrt F) (A : list (list F)) :
  getDominantEigenvalue A = spec_dominantEigenvalue (length A) A.
Proof.
  unfold getDominantEigenvalue, spec_dominantEigenvalue.
  destruct (length A) as [|m] eqn:Hlen; [reflexivity|].
  change (Nat.eqb (S m) 0) with false; cbv iota.
  rewrite power_iteration_spec by apply repeat_length.
  destruct (spec_iterate (S m) A 1000 _) as [v|]; [|reflexivity].
  rewrite mat_vec_product. reflexivity.
Qed.

(** C4: on dimension-consistent inputs [calculateMaxProfitRate] builds the
    coefficient matrix [A], takes [lambda = getDominantEigenvalue A], and
    returns the sentinel 100 when [lambda <= 1e-9] and [1 / lambda - 1]
    otherwise; it is a total function, so the degenerate case yields the
    sentinel and nothing else. *)
Theorem max_profit_rate_sentinel
    (F : Type) (N : Number F) (Q : MathSqrt F)
    (inputMatrix : list (list F)) (totalOutputs : list F) :
  let n := length totalOutputs in
  let A := coefficients inputMatrix totalOutputs in
  let lambda := getDominantEigenvalue A in
  square n inputMatrix ->
  square n A /\
  (forall i j, i < n -> j < n ->
     get2 A i j = coefficient inputMatrix totalOutputs i j) /\
  calculateMaxProfitRate inputMatrix totalOutputs
  = (if leb lambda lit_1e_9 then lit_100 else (1 / lambda - 1)%num) /\
  (leb lambda lit_1e_9 = true ->
     calculateMaxProfitRate inputMatrix totalOutputs = lit_100) /\
  (leb lambda lit_1e_9 = false ->
     calculateMaxProfitRate inputMatrix totalOutputs = (1 / lambda - 1)%num).
Proof.
  intros n A lambda _. split; [apply coefficients_square|].
  split; [intros i j Hi Hj; now apply coefficients_entry|].
  unfold calculateMaxProfitRate. fold A. fold lambda.
  split; [reflexivity|]. split; intros ->; reflexivity.
Qed.

Lemma max_profit_rate_sentinel_witness :
  calculateMaxProfitRate Example.INITIAL_MATRIX [575; 20]%float
  = (1 / getDominantEigenvalue
           (coefficients Example.INITIAL_MATRIX [575; 20]%float) - 1)%float /\
  calculateMaxProfitRate Example.idle_matrix [0]%float = 100%float.
Proof.
  split.
  - apply (@max_profit_rate_sentinel float Binary64.number Binary64.math_sqrt
             Example.INITIAL_MATRIX [575; 20]%float).
    + split; [reflexivity | repeat constructor].
    + vm_compute; reflexivity.
  - apply (@max_profit_rate_sentinel float Binary64.number Binary64.math_sqrt
             Example.idle_matrix [0]%float).
    + split; [reflexivity | repeat constructor].
    + vm_compute; reflexivity.
Defined.

(** * Aggregates and cost breakdown *)

Section ExactShares.

Context {F : Type} {N : Number F} (E : Exact N).

Add Field number_field_shares : (exact_field E).

Lemma exact_eqb_false (x y : F) : x <> y -> eqb x y = false.
Proof.
  intros Hne. destruct (eqb x y) eqn:Heq; [|reflexivity].
  apply (exact_eqb E) in Heq. contradiction.
Qed.

Lemma exact_eqb_refl (x : F) : eqb x x = true.
Proof.
  now apply (exact_eqb E).
Qed.

Lemma or_zero_exact (p : F) : or_zero p = p.
Proof.
  unfold or_zero. destruct (truthy p) eqn:Hp; [reflexivity|].
  symmetry. now apply (exact_falsy E).
Qed.

Lemma shares_sum (W P c : F) :
  (W + P)%num <> 0%num ->
  (W / (W + P) * c + P / (W + P) * c)%num = c.
Proof.
  intros Hne. field. exact Hne.
Qed.

Lemma share_over_one (W c : F) : (W / 1 * c)%num = (W * c)%num.
Proof.
  field. apply (F_1_neq_0 (exact_field E)).
Qed.

Lemma zero_share (c : F) : (0 * c)%num = 0%num.
Proof.
  ring.
Qed.

Lemma cancel_wages (P : F) : (0 + P)%num = 0%num -> P = 0%num.
Proof.
  intros H. rewrite <- H. ring.
Qed.

End ExactShares.

(** C9: with prices computed, [aggregates] returns [wageShare] and
    [profitShare] equal to [totalWages] and [totalProfits], each divided by
    the denominator and multiplied by 100, the denominator being [netProduct],
    or 1 when [netProduct] is exactly 0.  In exact arithmetic the two shares
    add up to 100 when [netProduct] is not 0; when it is 0 they read
    [totalWages * 100] and [totalProfits * 100], which is 0 for both when the
    wages are 0 and not otherwise. *)
Theorem aggregate_shares
    (F : Type) (N : Number F)
    (m : ComputedMetrics) (commodities : list Commodity)
    (matrix : list (list F)) (profitRate : F) :
  square (length commodities) matrix ->
  length (metrics_prices m) <> 0 ->
  exists a, aggregates m commodities matrix profitRate = Some a /\
    let denom := if eqb (netProduct a) 0%num then 1%num else netProduct a in
    totalProfits a = (totalCapital a * profitRate)%num /\
    netProduct a = (totalWages a + totalProfits a)%num /\
    wageShare a = (totalWages a / denom * lit_100)%num /\
    profitShare a = (totalProfits a / denom * lit_100)%num /\
    (Exact N ->
       (netProduct a <> 0%num ->
          (wageShare a + profitShare a)%num = lit_100) /\
       (netProduct a = 0%num ->
          wageShare a = (totalWages a * lit_100)%num /\
          profitShare a = (totalProfits a * lit_100)%num /\
          (totalWages a = 0%num ->
             wageShare a = 0%num /\ profitShare a = 0%num))).
Proof.
  intros _ Hprices. unfold aggregates.
  destruct (Nat.eqb_spec (length (metrics_prices m)) 0) as [H0|_]; [contradiction|].
  eexists; split; [reflexivity|]. simpl.
  split; [reflexivity|]. split; [reflexivity|].
  split; [reflexivity|]. split; [reflexivity|].
  intros E.
  set (W := snd (gross_and_wages m commodities)).
  set (P := (capital_advanced m commodities matrix * profitRate)%num).
  split.
  - intros Hne. rewrite (exact_eqb_false E Hne). now apply shares_sum.
  - intros Hzero. rewrite Hzero, (exact_eqb_refl E).
    rewrite !(share_over_one E). split; [reflexivity|]. split; [reflexivity|].
    intros HW. rewrite HW in Hzero |- *.
    rewrite (cancel_wages E _ Hzero), (zero_share E). split; reflexivity.
Qed.

Lemma aggregate_shares_witness :
  let m := metrics Example.INITIAL_COMMODITIES Example.INITIAL_MATRIX
             Example.initial_rate 1%float in
  exists a,
    aggregates m Example.INITIAL_COMMODITIES Example.INITIAL_MATRIX
      Example.initial_rate = Some a /\
    wageShare a = (totalWages a / netProduct a * 100)%float /\
    profitShare a = (totalProfits a / netProduct a * 100)%float.
Proof.
  intros m.
  destruct (@aggregate_shares float Binary64.number m
              Example.INITIAL_COMMODITIES Example.INITIAL_MATRIX
              Example.initial_rate)
    as [a [Ha [_ [_ [HW [HP _]]]]]].
  - split; [reflexivity | repeat constructor].
  - vm_compute. discriminate.
  - exists a. split; [exact Ha|].
    assert (Heq : eqb (netProduct a) 0%num = false).
    { vm_compute in Ha. inversion Ha. reflexivity. }
    rewrite Heq in HW, HP. split; [exact HW | exact HP].
Defined.

(** A commodity that consumes all it produces, at [r = 1] and [w = 1]: the
    price is -1, wages 1 and profits -1 cancel, [netProduct] is exactly 0,
    and the shares read 100 and -100, not 0. *)
Lemma shares_not_zero_when_net_product_is_zero :
  let m := metrics Example.no_surplus_commodities Example.no_surplus_matrix
             1%float 1%float in
  metrics_prices m = [(-1)%float] /\
  aggregates m Example.no_surplus_commodities Example.no_surplus_matrix 1%float
  = Some {| totalWages := 1%float;
            totalProfits := (-1)%float;
            netProduct := 0%float;
            totalCapital := (-1)%float;
            wageShare := 100%float;
            profitShare := (-100)%float |}.
Proof.
  split; vm_compute; reflexivity.
Qed.

(** In binary64 the two shares need not add up to 100 when [netProduct] is
    not 0.  A commodity that consumes all but 2^-50 of its output, at [r = 1]
    and [w = 1], has wages 1 and profits just below -1; [netProduct] is
    -2^-50 and the shares add up to 96.  Two commodities made by labor alone
    at a wage near the largest binary64 number have valid prices, an infinite
    wage bill, and a wage share that is NaN. *)
Lemma shares_sum_binary64_not_100 :
  (let m := metrics Scenario.near_cancelling_commodities
              Scenario.near_cancelling_matrix 1%float 1%float in
   option_map (fun a => (netProduct a, (wageShare a + profitShare a)%float))
     (aggregates m Scenario.near_cancelling_commodities
        Scenario.near_cancelling_matrix 1%float)
   = Some ((- 0x1p-50)%float, 96%float)) /\
  (let m := metrics Scenario.labor_only_commodities Scenario.labor_only_matrix
              0%float Scenario.high_wage in
   metrics_isValid m = true /\
   aggregates m Scenario.labor_only_commodities Scenario.labor_only_matrix 0%float
   = Some {| totalWages := infinity;
             totalProfits := 0%float;
             netProduct := infinity;
             totalCapital := 0%float;
             wageShare := nan;
             profitShare := 0%float |}).
Proof.
  split; [|split]; vm_compute; reflexivity.
Qed.

(** Where the price system divides by a total output it tests it against 0
    first: a zero output gives a zero coefficient and a zero unit labor. *)
Lemma zero_output_defined_away
    (F : Type) (N : Number F)
    (inputMatrix : list (list F)) (laborVector totalOutputs : list F) (w : F)
    (i j : nat) :
  i < length totalOutputs -> j < length totalOutputs ->
  eqb (get totalOutputs j) 0%num = true ->
  get2 (coefficients inputMatrix totalOutputs) i j = 0%num /\
  get (unit_labor laborVector totalOutputs w) j = 0%num.
Proof.
  intros Hi Hj Hzero. split.
  - rewrite coefficients_entry by assumption. unfold coefficient. now rewrite Hzero.
  - rewrite unit_labor_map. unfold get at 1. rewrite nth_map_seq by exact Hj.
    now rewrite Hzero.
Qed.

(** C8: a commodity whose total output is 0.  The coefficient matrix and the
    unit-labor vector guard the division and hold 0; [getCostBreakdown] guards
    the coefficient [a_ij] but not [wageCost], which divides the labor input
    10 by 0 and is infinite. *)
Theorem cost_breakdown_zero_output_wage_cost_infinite :
  let m := metrics Example.idle_commodities Example.idle_matrix
             Example.initial_rate 1%float in
  coefficients Example.idle_matrix [0%float] = [[0%float]] /\
  unit_labor [10%float] [0%float] 1%float = [0%float] /\
  metrics_prices m = [0%float] /\
  getCostBreakdown m Example.idle_commodities Example.idle_matrix
    Example.initial_rate 0
  = Some {| constantCapitalValue := 0%float;
            profit := 0%float;
            wageCost := infinity;
            price := 0%float |}.
Proof.
  repeat split; vm_compute; reflexivity.
Qed.

(** C2: on the same snapshot the prices are valid, and the three components
    of the cost of the commodity add up to infinity while its price is 0. *)
Theorem cost_breakdown_zero_output_misses_price :
  let m := metrics Example.idle_commodities Example.idle_matrix
             Example.initial_rate 1%float in
  metrics_isValid m = true /\
  exists c,
    getCostBreakdown m Example.idle_commodities Example.idle_matrix
      Example.initial_rate 0 = Some c /\
    (constantCapitalValue c + profit c + wageCost c)%num = infinity /\
    price c = 0%float.
Proof.
  split; [vm_compute; reflexivity|].
  eexists; split; [vm_compute; reflexivity|].
  split; vm_compute; reflexivity.
Qed.

(** Away from the zero-output defect the invariant of the spec holds: in
    exact arithmetic, for a commodity whose total output is positive, the
    three components add up to its price. *)

Section ExactCosts.

Context {F : Type} {N : Number F} (E : Exact N).

Add Field number_field_costs : (exact_field E).

Lemma get_map_totalOutput (commodities : list Commodity) (idx : nat) :
  get (map totalOutput commodities) idx = totalOutput (commodity commodities idx).
Proof.
  unfold get, commodity.
  exact (map_nth totalOutput commodities
           {| id := 0; name := String.EmptyString;
              totalOutput := undefined; laborInput := undefined |} idx).
Qed.

Lemma get_map_laborInput (commodities : list Commodity) (idx : nat) :
  get (map laborInput commodities) idx = laborInput (commodity commodities idx).
Proof.
  unfold get, commodity.
  exact (map_nth laborInput commodities
           {| id := 0; name := String.EmptyString;
              totalOutput := undefined; laborInput := undefined |} idx).
Qed.

Lemma system_row_product (A : list (list F)) (r : F) (P : list F) (n idx : nat) :
  idx < n ->
  sum_range 0 n (fun j => (system_entry A r idx j * get P j)%num)
  = (get P idx - (1 + r) * sum_range 0 n (fun j => (get P j * get2 A j idx)%num))%num.
Proof.
  intros Hidx.
  assert (Hs : sum_range 0 n (fun j => if Nat.eqb idx j then get P j else 0%num)
               = get P idx).
  { rewrite (sum_range_single E (lo := 0) (hi := n) (k := idx)).
    - now rewrite Nat.eqb_refl.
    - lia.
    - intros j Hj Hne. destruct (Nat.eqb_spec idx j); [congruence | reflexivity]. }
  rewrite <- Hs, <- (sum_range_combine E).
  apply sum_range_ext; intros j Hj. unfold system_entry.
  destruct (Nat.eqb idx j); ring.
Qed.

Lemma cost_breakdown_identity_exact
    (commodities : list Commodity) (matrix : list (list F)) (r w : F)
    (m : ComputedMetrics) (P : list F) (idx : nat) :
  let totalOutputs := map totalOutput commodities in
  let laborVector := map laborInput commodities in
  solveLinearSystem
    (system_matrix (coefficients matrix totalOutputs) (length totalOutputs) r)
    (unit_labor laborVector totalOutputs w) = Some P ->
  metrics_prices m = P -> metrics_wage m = w ->
  idx < length commodities ->
  gtb (totalOutput (commodity commodities idx)) 0%num = true ->
  exists c,
    getCostBreakdown m commodities matrix r idx = Some c /\
    (constantCapitalValue c + profit c + wageCost c)%num = price c.
Proof.
  intros totalOutputs laborVector Hsolve HP Hw Hidx Hpos.
  set (n := length commodities) in *.
  assert (Hn : length totalOutputs = n) by (unfold totalOutputs; apply length_map).
  rewrite Hn in Hsolve.
  set (A := coefficients matrix totalOutputs) in *.
  set (X := totalOutput (commodity commodities idx)) in *.
  assert (HX : X <> 0%num) by (apply (exact_positive E); exact Hpos).
  destruct (@solve_some_exact F N E (system_matrix A n r)
              (unit_labor laborVector totalOutputs w) P n) as [HlenP Hsol].
  { apply system_matrix_square. }
  { rewrite unit_labor_map, length_map, length_seq. exact Hn. }
  { exact Hsolve. }
  specialize (Hsol idx Hidx). unfold dot, sum_over in Hsol.
  rewrite (sum_range_ext _ (fun j => (system_entry A r idx j * get P j)%num)) in Hsol.
  2:{ intros j Hj. change (get (row (system_matrix A n r) idx) j)
        with (get2 (system_matrix A n r) idx j).
      rewrite system_matrix_entry by lia. reflexivity. }
  rewrite (system_row_product A r P Hidx) in Hsol.
  rewrite (sum_range_ext _ (fun j => (get P j * (get2 matrix j idx / X))%num)) in Hsol.
  2:{ intros j Hj. unfold A. rewrite coefficients_entry by lia.
      unfold coefficient. unfold totalOutputs at 1 2.
      rewrite get_map_totalOutput. fold X. rewrite (exact_eqb_false E HX). reflexivity. }
  rewrite unit_labor_map in Hsol. unfold get at 3 in Hsol.
  rewrite (nth_map_seq _ (n := length totalOutputs)) in Hsol by lia.
  unfold totalOutputs in Hsol at 1 2. unfold laborVector in Hsol.
  rewrite get_map_totalOutput, get_map_laborInput in Hsol. fold X in Hsol.
  rewrite (exact_eqb_false E HX) in Hsol.
  unfold getCostBreakdown. rewrite HP, Hw.
  destruct (Nat.eqb_spec (length P) 0) as [H0|_]; [lia|].
  eexists; split; [reflexivity|]. simpl. fold n. fold X. rewrite Hpos.
  change (for_range 0 n
            (fun inputIdx constantCapitalValue =>
               (constantCapitalValue
                + or_zero (get P inputIdx) * (get2 matrix inputIdx idx / X))%num) 0%num)
    with (sum_range 0 n
            (fun j => (or_zero (get P j) * (get2 matrix j idx / X))%num)).
  rewrite (sum_range_ext _ (fun j => (get P j * (get2 matrix j idx / X))%num))
    by (intros j Hj; now rewrite (or_zero_exact E)).
  rewrite <- Hsol. ring.
Qed.

End ExactCosts.

Lemma cost_breakdown_identity_example :
  exists c,
    getCostBreakdown Example.rational_metrics Example.rational_commodities
      Example.rational_matrix Example.rational_rate 0 = Some c /\
    (constantCapitalValue c + profit c + wageCost c)%num = price c.
Proof.
  destruct (solveLinearSystem
              (system_matrix
                 (coefficients Example.rational_matrix
                    (map totalOutput Example.rational_commodities))
                 (length (map totalOutput Example.rational_commodities))
                 Example.rational_rate)
              (unit_labor (map laborInput Example.rational_commodities)
                 (map totalOutput Example.rational_commodities) (Q2Qc 1)))
    as [P|] eqn:Hsolve.
  - apply (@cost_breakdown_identity_exact Qc Rational.number rational_exact
             Example.rational_commodities Example.rational_matrix
             Example.rational_rate (Q2Qc 1) Example.rational_metrics P 0 Hsolve).
    + unfold Example.rational_metrics, calculateSraffianPrices.
      cbv zeta. rewrite Hsolve. reflexivity.
    + reflexivity.
    + simpl; lia.
    + reflexivity.
  - vm_compute in Hsolve. discriminate.
Qed.

(** * Further properties of the solver *)

Section SolverUniqueness.

Context {F : Type} {N : Number F} (E : Exact N).

Add Field number_field_unique : (exact_field E).

Lemma satisfies_swap_rows_forward (n : nat) (aug : list (list F)) (i m : nat)
    (x : list F) :
  shaped n (S n) aug -> i < n -> m < n ->
  satisfies n aug x -> satisfies n (swap_rows aug i m) x.
Proof.
  intros Haug Hi Hm Hsat k Hk. unfold get2.
  rewrite (row_swap_rows k Haug Hi Hm).
  destruct (Nat.eqb_spec k m); [exact (Hsat i Hi)|].
  destruct (Nat.eqb_spec k i); [exact (Hsat m Hm) | exact (Hsat k Hk)].
Qed.

Lemma satisfies_eliminate_forward (n : nat) (aug : list (list F)) (i : nat)
    (x : list F) :
  shaped n (S n) aug -> i < n -> eliminated n i aug ->
  satisfies n aug x -> satisfies n (eliminate n i aug) x.
Proof.
  intros Haug Hi Hel Hsat.
  destruct (eliminate_spec Haug Hi) as [_ Hget].
  intros k Hk. destruct (le_lt_dec k i) as [Hle|Hlt].
  - assert (Hik : Nat.ltb i k = false) by (apply Nat.ltb_ge; lia).
    rewrite Hget, Hik; simpl. rewrite <- (Hsat k Hk).
    unfold dot, sum_over. apply sum_range_ext; intros j Hj.
    change (get (row (eliminate n i aug) k) j) with (get2 (eliminate n i aug) k j).
    rewrite Hget, Hik. reflexivity.
  - set (f := (get2 aug k i / get2 aug i i)%num).
    assert (Hentry : forall j, j <= n ->
              get2 (eliminate n i aug) k j = (get2 aug k j - f * get2 aug i j)%num).
    { intros j Hj. rewrite Hget.
      replace (Nat.ltb i k) with true by (symmetry; apply Nat.ltb_lt; lia).
      replace (Nat.ltb k n) with true by (symmetry; apply Nat.ltb_lt; lia).
      replace (Nat.leb j n) with true by (symmetry; apply Nat.leb_le; lia).
      simpl. destruct (Nat.leb_spec i j); simpl; [reflexivity|].
      rewrite (Hel k j), (Hel i j) by lia. ring. }
    rewrite (Hentry n (Nat.le_refl n)).
    transitivity (dot n (row aug k) x - f * dot n (row aug i) x)%num.
    + unfold dot, sum_over. rewrite <- (sum_range_combine E).
      apply sum_range_ext; intros j Hj.
      change (get (row (eliminate n i aug) k) j) with (get2 (eliminate n i aug) k j).
      rewrite Hentry by lia. unfold get2. ring.
    + rewrite (Hsat k Hk), (Hsat i Hi). reflexivity.
Qed.

Lemma forward_keeps_solutions (n : nat) (len i : nat) (aug aug' : list (list F))
    (x : list F) :
  shaped n (S n) aug -> i + len <= n ->
  eliminated n i aug -> pivots_nonzero i aug ->
  forward n (seq i len) aug = Some aug' ->
  satisfies n aug x -> satisfies n aug' x.
Proof.
  revert i aug; induction len as [|len IH]; intros i aug Haug Hle Hel Hpiv Hfwd Hsat.
  - simpl in Hfwd; inversion Hfwd; subst aug'; exact Hsat.
  - simpl in Hfwd. destruct (elim_step n i aug) as [aug1|] eqn:Hstep; [|discriminate].
    destruct (elim_step_exact E Haug (i := i) ltac:(lia) Hel Hpiv Hstep)
      as [H1 [H2 [H3 _]]].
    apply (IH (S i) aug1 H1 ltac:(lia) H2 H3 Hfwd).
    apply elim_step_some in Hstep as [_ ->].
    assert (Hi : i < n) by lia.
    pose proof (select_pivot_range aug Hi) as Hm.
    apply satisfies_eliminate_forward.
    + now apply shaped_swap_rows.
    + exact Hi.
    + now apply eliminated_swap_rows.
    + now apply satisfies_swap_rows_forward.
Qed.

Lemma is_solution_augment (n : nat) (A : list (list F)) (b x : list F) :
  square n A -> length b = n ->
  is_solution n A b x -> satisfies n (augment A b) x.
Proof.
  intros HA Hb Hsol k Hk.
  rewrite (@get2_augment_right F N n A b k HA Hb Hk), <- (Hsol k Hk).
  unfold dot, sum_over. apply sum_range_ext; intros j Hj.
  change (get (row A k) j) with (get2 A k j).
  change (get (row (augment A b) k) j) with (get2 (augment A b) k j).
  rewrite (@get2_augment_left F N n A b k j HA Hb Hk) by lia. reflexivity.
Qed.

(** A triangular system with non-zero diagonal has at most one solution. *)
Lemma triangular_unique (n : nat) (aug : list (list F)) (x y : list F) :
  eliminated n n aug -> pivots_nonzero n aug ->
  satisfies n aug x -> satisfies n aug y ->
  forall k, k < n -> get x k = get y k.
Proof.
  intros Hel Hpiv Hx Hy.
  assert (Hgen : forall m k, n - m <= k < n -> get x k = get y k).
  { induction m as [|m IH]; intros k Hk; [lia|].
    assert (Hlater : forall j, k < j < n -> get x j = get y j)
      by (intros j Hj; apply IH; lia).
    pose proof (Hx k (proj2 Hk)) as Hxk. pose proof (Hy k (proj2 Hk)) as Hyk.
    unfold dot, sum_over in Hxk, Hyk.
    rewrite (sum_range_split E _ (mid := k)) in Hxk by lia.
    rewrite (sum_range_split E _ (mid := k)) in Hyk by lia.
    rewrite (sum_range_first E (lo := k)) in Hxk by lia.
    rewrite (sum_range_first E (lo := k)) in Hyk by lia.
    rewrite (sum_range_zero E (lo := 0) (hi := k)) in Hxk
      by (intros j Hj; change (get (row aug k) j) with (get2 aug k j);
          rewrite Hel by lia; ring).
    rewrite (sum_range_zero E (lo := 0) (hi := k)) in Hyk
      by (intros j Hj; change (get (row aug k) j) with (get2 aug k j);
          rewrite Hel by lia; ring).
    rewrite (sum_range_ext (lo := S k) (hi := n)
               (fun j => (get (row aug k) j * get x j)%num)
               (fun j => (get (row aug k) j * get y j)%num)) in Hxk
      by (intros j Hj; rewrite Hlater by lia; reflexivity).
    rewrite <- Hyk in Hxk.
    specialize (Hpiv k (proj2 Hk)). unfold get2 in Hpiv.
    set (T := sum_range (S k) n (fun j => (get (row aug k) j * get y j)%num)) in *.
    set (p := get (row aug k) k) in *.
    assert (Hmul : (p * get x k)%num = (p * get y k)%num).
    { replace (p * get x k)%num with ((0 + (p * get x k + T)) - T)%num by ring.
      rewrite Hxk. ring. }
    replace (get x k) with ((p * get x k) / p)%num by (field; exact Hpiv).
    rewrite Hmul. field. exact Hpiv. }
  intros k Hk. apply (Hgen n); lia.
Qed.

Lemma solve_unique_entries (A : list (list F)) (b x y : list F) (n : nat) :
  square n A -> length b = n ->
  solveLinearSystem A b = Some x ->
  is_solution n A b y ->
  forall k, k < n -> get y k = get x k.
Proof.
  intros HA Hb Hsolve Hy. pose proof (proj1 HA) as HlenA.
  rewrite solveLinearSystem_unfold, HlenA in Hsolve.
  destruct (forward n (seq 0 n) (augment A b)) as [aug|] eqn:Hfwd; [|discriminate].
  inversion Hsolve; subst x; clear Hsolve.
  pose proof (shaped_augment b HA Hb) as Hshape.
  destruct (@forward_exact F N E n n 0 (augment A b) aug Hshape)
    as [H1 [H2 [H3 H4]]]; [lia | intros k j Hj; lia | intros k Hk; lia | exact Hfwd |].
  apply (triangular_unique H2 H3).
  - apply (@forward_keeps_solutions n n 0 (augment A b) aug y Hshape);
      [lia | intros k j Hj; lia | intros k Hk; lia | exact Hfwd |].
    now apply is_solution_augment.
  - apply (back_substitute_exact E); [apply repeat_length | exact H2 | exact H3].
Qed.

End SolverUniqueness.

(** X1: in exact arithmetic the vector the solver returns is the only
    solution of the system: every [y] of length [n] with [A y = b] is that
    vector. *)
Theorem solver_solution_unique
    (F : Type) (N : Number F) (E : Exact N)
    (A : list (list F)) (b x y : list F) (n : nat) :
  square n A -> length b = n ->
  solveLinearSystem A b = Some x ->
  length y = n -> is_solution n A b y ->
  y = x.
Proof.
  intros HA Hb Hsolve Hlen Hy.
  apply (array_ext (n := n)).
  - exact Hlen.
  - apply solve_some_length in Hsolve. rewrite Hsolve. exact (proj1 HA).
  - exact (@solve_unique_entries F N E A b x y n HA Hb Hsolve Hy).
Qed.

Lemma solver_solution_unique_witness :
  solveLinearSystem Example.regular Example.regular_rhs
  = Some Scenario.regular_solution.
Proof.
  destruct (solveLinearSystem Example.regular Example.regular_rhs) as [x|] eqn:Hsolve.
  - f_equal. symmetry.
    apply (@solver_solution_unique Qc Rational.number rational_exact
             Example.regular Example.regular_rhs x Scenario.regular_solution 2).
    + split; [reflexivity | repeat constructor].
    + reflexivity.
    + exact Hsolve.
    + reflexivity.
    + intros [|[|k]] Hk; [| |lia]; apply Qc_is_canon; vm_compute; reflexivity.
  - vm_compute in Hsolve. discriminate.
Defined.

(** X2: in exact arithmetic, when the elimination loop runs to its end it
    leaves an augmented matrix of the same shape that is upper triangular,
    has a non-zero diagonal, and has exactly the solutions of [A x = b]. *)
Theorem forward_elimination_triangular
    (F : Type) (N : Number F) (E : Exact N)
    (A : list (list F)) (b : list F) (n : nat) (aug : list (list F)) :
  square n A -> length b = n ->
  forward n (seq 0 n) (augment A b) = Some aug ->
  shaped n (S n) aug /\
  (forall k j, j < k -> k < n -> get2 aug k j = 0%num) /\
  (forall k, k < n -> get2 aug k k <> 0%num) /\
  (forall x, satisfies n aug x <-> is_solution n A b x).
Proof.
  intros HA Hb Hfwd.
  pose proof (shaped_augment b HA Hb) as Hshape.
  destruct (@forward_exact F N E n n 0 (augment A b) aug Hshape)
    as [H1 [H2 [H3 H4]]]; [lia | intros k j Hj; lia | intros k Hk; lia | exact Hfwd |].
  split; [exact H1|]. split; [|split].
  - intros k j Hjk Hk. apply H2; lia.
  - exact H3.
  - intros x; split.
    + intros Hx. eapply satisfies_augment; [exact HA | exact Hb |]. now apply H4.
    + intros Hx.
      apply (@forward_keeps_solutions F N E n n 0 (augment A b) aug x Hshape);
        [lia | intros k j Hj; lia | intros k Hk; lia | exact Hfwd |].
      now apply is_solution_augment.
Qed.

Lemma forward_elimination_triangular_witness :
  exists aug,
    forward 2 (seq 0 2) (augment Example.regular Example.regular_rhs) = Some aug /\
    get2 aug 1 0 = Q2Qc 0 /\
    get2 aug 0 0 <> Q2Qc 0 /\ get2 aug 1 1 <> Q2Qc 0.
Proof.
  destruct (forward 2 (seq 0 2) (augment Example.regular Example.regular_rhs))
    as [aug|] eqn:Hfwd; [|vm_compute in Hfwd; discriminate].
  destruct (@forward_elimination_triangular Qc Rational.number rational_exact
              Example.regular Example.regular_rhs 2 aug)
    as [_ [Hlow [Hdiag _]]].
  - split; [reflexivity | repeat constructor].
  - reflexivity.
  - exact Hfwd.
  - exists aug. split; [reflexivity|]. split; [apply Hlow; lia|].
    split; apply Hdiag; lia.
Defined.

(** * Partial pivoting *)

Lemma rational_pivot_order : PivotOrder Rational.number.
Proof.
  constructor; unfold gtb; simpl; unfold Rational.lt_bool.
  - intros x. assert (Hx : (x ?= x)%Qc = Eq) by (now apply Qceq_alt).
    now rewrite Hx.
  - intros x y z Hyx Hyz.
    destruct (y ?= x)%Qc eqn:Cyx; try discriminate;
      destruct (y ?= z)%Qc eqn:Cyz; try discriminate;
      destruct (z ?= x)%Qc eqn:Czx; try reflexivity; exfalso.
    + apply Qceq_alt in Cyx. subst y.
      apply Qclt_alt in Cyz, Czx.
      exact (Qclt_not_eq _ _ (Qclt_trans _ _ _ Cyz Czx) eq_refl).
    + apply Qcgt_alt in Cyx. apply Qclt_alt in Cyz, Czx.
      exact (Qclt_not_eq _ _
               (Qclt_trans _ _ _ Cyx (Qclt_trans _ _ _ Cyz Czx)) eq_refl).
Qed.

Lemma SFltb_irreflexive (s : spec_float) : SFltb s s = false.
Proof.
  unfold SFltb, SFcompare. destruct s as [[|]|[|]| |[|] m e]; try reflexivity.
  - rewrite Z.compare_refl, Pos.compare_cont_refl. reflexivity.
  - rewrite Z.compare_refl, Pos.compare_cont_refl. reflexivity.
Qed.

Lemma SFltb_chain (x y z : spec_float) :
  SFltb y x = false -> SFltb y z = true -> SFltb z x = false.
Proof.
  unfold SFltb, SFcompare.
  destruct x as [[|]|[|]| |[|] mx ex], y as [[|]|[|]| |[|] my ey],
           z as [[|]|[|]| |[|] mz ez];
    try reflexivity; try discriminate; intros H1 H2.
  all: repeat match goal with
       | H : context [Z.compare ?a ?b] |- _ => destruct (Z.compare_spec a b); subst
       | |- context [Z.compare ?a ?b] => destruct (Z.compare_spec a b); subst
       end; try discriminate; try reflexivity; try lia.
  all: rewrite ?Pos.compare_cont_spec in *; simpl in *.
  all: repeat match goal with
       | H : context [Pos.compare ?a ?b] |- _ => destruct (Pos.compare_spec a b); subst
       | |- context [Pos.compare ?a ?b] => destruct (Pos.compare_spec a b); subst
       end; simpl in *; try discriminate; try reflexivity; try lia.
Qed.

(** In binary64 [>] obeys the two laws, NaN included. *)
Lemma binary64_pivot_order : PivotOrder Binary64.number.
Proof.
  constructor; unfold gtb; simpl.
  - intros x. rewrite ltb_spec. apply SFltb_irreflexive.
  - intros x y z. rewrite !ltb_spec. apply SFltb_chain.
Qed.

(** X3: the row that partial pivoting selects at step [i] lies between [i]
    and [n - 1], and no candidate row has a strictly larger magnitude in
    column [i]; this holds in binary64 and in exact arithmetic. *)
Theorem select_pivot_maximal
    (F : Type) (N : Number F) (O : PivotOrder N)
    (n : nat) (aug : list (list F)) (i : nat) :
  i < n ->
  i <= select_pivot n aug i < n /\
  forall k, i <= k < n ->
    gtb (abs (get2 aug k i)) (abs (get2 aug (select_pivot n aug i) i)) = false.
Proof.
  intros Hi. unfold select_pivot.
  apply (for_range_invariant
           (fun hi m => i <= m < hi /\
              forall k, i <= k < hi ->
                gtb (abs (get2 aug k i)) (abs (get2 aug m i)) = false)).
  - lia.
  - split; [lia|]. intros k Hk. replace k with i by lia. apply (gtb_irreflexive O).
  - intros k m Hk [Hm Hmax].
    destruct (gtb (abs (get2 aug k i)) (abs (get2 aug m i))) eqn:Hgt.
    + split; [lia|]. intros k' Hk'.
      destruct (Nat.eq_dec k' k) as [->|Hne]; [apply (gtb_irreflexive O)|].
      apply (gtb_chain O) with (y := abs (get2 aug m i)); [apply Hmax; lia | exact Hgt].
    + split; [lia|]. intros k' Hk'.
      destruct (Nat.eq_dec k' k) as [->|Hne]; [exact Hgt | apply Hmax; lia].
Qed.

Lemma select_pivot_maximal_witness :
  select_pivot 2 Scenario.unsorted 0 = 1 /\
  gtb (abs (get2 Scenario.unsorted 0 0))
      (abs (get2 Scenario.unsorted (select_pivot 2 Scenario.unsorted 0) 0)) = false.
Proof.
  split; [vm_compute; reflexivity|].
  apply (@select_pivot_maximal float Binary64.number binary64_pivot_order
           2 Scenario.unsorted 0); lia.
Defined.

(** * The verdict of the solver and the right-hand side *)

Section RightHandSide.

Context {F : Type} {N : Number F}.

(** Two augmented matrices with the same coefficients. *)
Lemma select_pivot_same_coefficients (n : nat) (aug aug' : list (list F)) (i : nat) :
  i < n ->
  (forall k j, j < n -> get2 aug k j = get2 aug' k j) ->
  select_pivot n aug i = select_pivot n aug' i.
Proof.
  intros Hi Hsame. unfold select_pivot.
  apply for_range_ext; intros k m Hk. now rewrite !Hsame.
Qed.

Lemma elim_step_same_coefficients (n i : nat) (aug aug' : list (list F)) :
  shaped n (S n) aug -> shaped n (S n) aug' -> i < n ->
  (forall k j, j < n -> get2 aug k j = get2 aug' k j) ->
  match elim_step n i aug, elim_step n i aug' with
  | Some a, Some a' =>
      shaped n (S n) a /\ shaped n (S n) a' /\
      forall k j, j < n -> get2 a k j = get2 a' k j
  | None, None => True
  | _, _ => False
  end.
Proof.
  intros Haug Haug' Hi Hsame. unfold elim_step; cbv zeta.
  rewrite <- (@select_pivot_same_coefficients n aug aug' i Hi Hsame).
  pose proof (select_pivot_range aug Hi) as Hm.
  set (m := select_pivot n aug i) in *.
  pose proof (shaped_swap_rows Haug Hi (proj2 Hm)) as H1.
  pose proof (shaped_swap_rows Haug' Hi (proj2 Hm)) as H1'.
  assert (Hswap : forall k j, j < n ->
            get2 (swap_rows aug i m) k j = get2 (swap_rows aug' i m) k j).
  { intros k j Hj. unfold get2.
    rewrite (row_swap_rows k Haug Hi (proj2 Hm)),
            (row_swap_rows k Haug' Hi (proj2 Hm)).
    destruct (Nat.eqb k m); [apply Hsame; exact Hj|].
    destruct (Nat.eqb k i); apply Hsame; exact Hj. }
  rewrite (Hswap i i Hi).
  destruct (ltb (abs (get2 (swap_rows aug' i m) i i)) lit_1e_10); [exact I|].
  destruct (eliminate_spec H1 Hi) as [Hs Hget].
  destruct (eliminate_spec H1' Hi) as [Hs' Hget'].
  split; [exact Hs|]. split; [exact Hs'|].
  intros k j Hj. rewrite Hget, Hget'.
  rewrite !(Hswap _ _ Hj), !(Hswap _ _ Hi). reflexivity.
Qed.

Lemma forward_same_coefficients (n : nat) (len i : nat) (aug aug' : list (list F)) :
  shaped n (S n) aug -> shaped n (S n) aug' -> i + len <= n ->
  (forall k j, j < n -> get2 aug k j = get2 aug' k j) ->
  (forward n (seq i len) aug = None <-> forward n (seq i len) aug' = None).
Proof.
  revert i aug aug'; induction len as [|len IH];
    intros i aug aug' Haug Haug' Hle Hsame; simpl.
  - split; discriminate.
  - pose proof (@elim_step_same_coefficients n i aug aug' Haug Haug'
                  ltac:(lia) Hsame) as Hstep.
    destruct (elim_step n i aug) as [a|], (elim_step n i aug') as [a'|];
      try contradiction.
    + destruct Hstep as [Ha [Ha' Hsame']]. apply IH; [assumption.. | lia | assumption].
    + split; reflexivity.
Qed.

End RightHandSide.

Lemma solve_none_same_matrix
    (F : Type) (N : Number F) (A : list (list F)) (b b' : list F) (n : nat) :
  square n A -> length b = n -> length b' = n ->
  (solveLinearSystem A b = None <-> solveLinearSystem A b' = None).
Proof.
  intros HA Hb Hb'. rewrite !solveLinearSystem_unfold, (proj1 HA).
  pose proof (@forward_same_coefficients F N n n 0 (augment A b) (augment A b')
                (shaped_augment b HA Hb) (shaped_augment b' HA Hb')
                (Nat.le_refl n)) as Hsame.
  assert (Hiff : forward n (seq 0 n) (augment A b) = None <->
                 forward n (seq 0 n) (augment A b') = None).
  { apply Hsame. intros k j Hj. destruct (le_lt_dec n k) as [Hk|Hk].
    - unfold get2, row, augment.
      rewrite !nth_overflow by (rewrite length_map_indexed; lia). reflexivity.
    - rewrite (@get2_augment_left F N n A b k j HA Hb Hk Hj).
      rewrite (@get2_augment_left F N n A b' k j HA Hb' Hk Hj). reflexivity. }
  destruct (forward n (seq 0 n) (augment A b)),
           (forward n (seq 0 n) (augment A b'));
    split; intros H; try discriminate; try reflexivity;
    destruct Hiff as [H1 H2];
    first [discriminate (H2 eq_refl) | discriminate (H1 eq_refl)].
Qed.

(** X4: whether the solver returns [null] depends on the matrix alone, not on
    the right-hand side, in any arithmetic. *)
Theorem solver_verdict_ignores_rhs
    (F : Type) (N : Number F) (A : list (list F)) (b b' : list F) (n : nat) :
  square n A -> length b = n -> length b' = n ->
  (solveLinearSystem A b = None <-> solveLinearSystem A b' = None).
Proof.
  intros HA Hb Hb'. now apply (@solve_none_same_matrix F N A b b' n).
Qed.

Lemma solver_verdict_ignores_rhs_witness :
  solveLinearSystem Example.deficient [1; 2]%float = None <->
  solveLinearSystem Example.deficient Example.deficient_rhs = None.
Proof.
  apply (@solver_verdict_ignores_rhs float Binary64.number
           Example.deficient [1; 2]%float Example.deficient_rhs 2).
  - split; [reflexivity | repeat constructor].
  - reflexivity.
  - reflexivity.
Defined.

(** * Further properties of the price system *)

Section WageScaling.

Context {F : Type} {N : Number F} (E : Exact N).

Add Field number_field_wage : (exact_field E).

Lemma sum_range_scale (lo hi : nat) (f : nat -> F) (c : F) :
  sum_range lo hi (fun j => (c * f j)%num) = (c * sum_range lo hi f)%num.
Proof.
  destruct (le_lt_dec lo hi) as [Hle|Hlt].
  - induction Hle as [|hi Hle IH].
    + rewrite !(sum_range_empty (N := N)) by lia; ring.
    + rewrite !(sum_range_last (N := N)) by exact Hle. rewrite IH; ring.
  - rewrite !(sum_range_empty (N := N)) by lia; ring.
Qed.

Lemma sum_range_plus (lo hi : nat) (f g : nat -> F) :
  sum_range lo hi (fun j => (f j + g j)%num)
  = (sum_range lo hi f + sum_range lo hi g)%num.
Proof.
  destruct (le_lt_dec lo hi) as [Hle|Hlt].
  - induction Hle as [|hi Hle IH].
    + rewrite !(sum_range_empty (N := N)) by lia; ring.
    + rewrite !(sum_range_last (N := N)) by exact Hle. rewrite IH; ring.
  - rewrite !(sum_range_empty (N := N)) by lia; ring.
Qed.

Lemma length_unit_labor (laborVector totalOutputs : list F) (w : F) :
  length (unit_labor laborVector totalOutputs w) = length totalOutputs.
Proof.
  now rewrite unit_labor_map, length_map, length_seq.
Qed.

Lemma get_unit_labor (laborVector totalOutputs : list F) (w : F) (j : nat) :
  j < length totalOutputs ->
  get (unit_labor laborVector totalOutputs w) j
  = if eqb (get totalOutputs j) 0%num then 0%num
    else (get laborVector j / get totalOutputs j * w)%num.
Proof.
  intros Hj. rewrite unit_labor_map. unfold get at 1.
  now rewrite nth_map_seq.
Qed.

Lemma scaled_prices_solve (A : list (list F)) (laborVector totalOutputs : list F)
    (r w : F) (P1 : list F) :
  let n := length totalOutputs in
  length P1 = n ->
  is_solution n (system_matrix A n r) (unit_labor laborVector totalOutputs 1%num) P1 ->
  is_solution n (system_matrix A n r) (unit_labor laborVector totalOutputs w)
    (map (fun p => (w * p)%num) P1).
Proof.
  intros n Hlen Hsol k Hk.
  specialize (Hsol k Hk). rewrite get_unit_labor in * by exact Hk.
  unfold dot, sum_over in *.
  rewrite (sum_range_ext _
             (fun j => (w * (get (row (system_matrix A n r) k) j * get P1 j))%num)).
  - rewrite sum_range_scale, Hsol.
    destruct (eqb (get totalOutputs k) 0%num); ring.
  - intros j Hj. rewrite get_map by lia. ring.
Qed.

End WageScaling.

(** X5: in exact arithmetic prices are proportional to the wage: if the
    system has prices at wage 1, it has prices at every wage [w], and each is
    [w] times the price at wage 1. *)
Theorem prices_scale_with_wage
    (F : Type) (N : Number F) (E : Exact N)
    (inputMatrix : list (list F)) (laborVector totalOutputs : list F)
    (r w : F) (P1 : list F) :
  let n := length totalOutputs in
  let M := system_matrix (coefficients inputMatrix totalOutputs) n r in
  square n inputMatrix ->
  solveLinearSystem M (unit_labor laborVector totalOutputs 1%num) = Some P1 ->
  prices (calculateSraffianPrices inputMatrix laborVector totalOutputs r 1%num) = P1 /\
  length (prices (calculateSraffianPrices inputMatrix laborVector totalOutputs r w))
  = n /\
  forall i, i < n ->
    get (prices (calculateSraffianPrices inputMatrix laborVector totalOutputs r w)) i
    = (w * get P1 i)%num.
Proof.
  intros n M _ Hsolve1.
  assert (HS : square n M) by apply system_matrix_square.
  assert (Hl1 : length (unit_labor laborVector totalOutputs 1%num) = n)
    by apply length_unit_labor.
  assert (Hlw : length (unit_labor laborVector totalOutputs w) = n)
    by apply length_unit_labor.
  destruct (@solve_some_exact F N E M _ P1 n HS Hl1 Hsolve1) as [HlenP1 Hsol1].
  split; [unfold calculateSraffianPrices; fold n; fold M; now rewrite Hsolve1|].
  unfold calculateSraffianPrices; fold n; fold M.
  destruct (solveLinearSystem M (unit_labor laborVector totalOutputs w))
    as [Pw|] eqn:Hsolvew.
  - simpl. destruct (@solve_some_exact F N E M _ Pw n HS Hlw Hsolvew) as [HlenPw _].
    split; [exact HlenPw|]. intros i Hi.
    rewrite <- (@solve_unique_entries F N E M
                  (unit_labor laborVector totalOutputs w) Pw
                  (map (fun p => (w * p)%num) P1) n HS Hlw Hsolvew).
    + apply get_map; lia.
    + now apply scaled_prices_solve.
    + exact Hi.
  - exfalso.
    apply (@solve_none_same_matrix F N M
             (unit_labor laborVector totalOutputs w)
             (unit_labor laborVector totalOutputs 1%num) n HS Hlw Hl1) in Hsolvew.
    congruence.
Qed.

Lemma prices_scale_with_wage_witness :
  get (prices (calculateSraffianPrices Example.rational_matrix
                 [Q2Qc 1] [Q2Qc 2] Example.rational_rate (Q2Qc 3))) 0
  = (Q2Qc 3
     * get (prices (calculateSraffianPrices Example.rational_matrix
                      [Q2Qc 1] [Q2Qc 2] Example.rational_rate 1%num)) 0)%num.
Proof.
  destruct (solveLinearSystem
              (system_matrix (coefficients Example.rational_matrix [Q2Qc 2]) 1
                 Example.rational_rate)
              (unit_labor [Q2Qc 1] [Q2Qc 2] 1%num)) as [P1|] eqn:Hsolve;
    [|vm_compute in Hsolve; discriminate].
  destruct (@prices_scale_with_wage Qc Rational.number rational_exact
              Example.rational_matrix [Q2Qc 1] [Q2Qc 2] Example.rational_rate
              (Q2Qc 3) P1) as [H1 [_ Hw]].
  - split; [reflexivity | repeat constructor].
  - exact Hsolve.
  - rewrite H1. apply Hw. simpl; lia.
Defined.

(** * The accounts of [aggregates] *)

Section Accounts.

Context {F : Type} {N : Number F}.

Lemma fold_left_ext_in {A St : Type} (f g : St -> A -> St) (l : list A) (s : St) :
  (forall t x, In x l -> f t x = g t x) ->
  fold_left f l s = fold_left g l s.
Proof.
  revert s; induction l as [|x l IH]; intros s Hfg; simpl; [reflexivity|].
  rewrite Hfg by (left; reflexivity). apply IH.
  intros t y Hy; apply Hfg; right; exact Hy.
Qed.

(** A [forEach] with index is a loop over the indices. *)
Lemma fold_combine_seq {A St : Type} (f : St -> A * nat -> St) (l : list A)
    (d : A) (i0 : nat) (s : St) :
  fold_left f (combine l (seq i0 (length l))) s
  = fold_left (fun t i => f t (nth (i - i0) l d, i)) (seq i0 (length l)) s.
Proof.
  revert i0 s; induction l as [|x l IH]; intros i0 s; simpl; [reflexivity|].
  rewrite Nat.sub_diag. rewrite IH.
  apply fold_left_ext_in. intros t i Hi. apply in_seq in Hi.
  replace (i - i0) with (S (i - S i0)) by lia. reflexivity.
Qed.

Lemma gross_and_wages_sums (m : ComputedMetrics) (commodities : list Commodity) :
  gross_and_wages m commodities
  = (sum_range 0 (length commodities)
       (fun j => (or_zero (get (metrics_prices m) j)
                  * totalOutput (commodity commodities j))%num),
     sum_range 0 (length commodities)
       (fun j => (metrics_wage m * laborInput (commodity commodities j))%num)).
Proof.
  transitivity
    (for_range 0 (length commodities)
       (fun j (acc : F * F) =>
          ((fst acc + or_zero (get (metrics_prices m) j)
                      * totalOutput (commodity commodities j))%num,
           (snd acc + metrics_wage m * laborInput (commodity commodities j))%num))
       (0%num, 0%num)).
  - unfold gross_and_wages, for_range. rewrite Nat.sub_0_r.
    rewrite (fold_combine_seq _ commodities
               {| id := 0; name := String.EmptyString;
                  totalOutput := undefined; laborInput := undefined |}).
    apply fold_left_ext_in. intros [g w] i Hi. rewrite Nat.sub_0_r. reflexivity.
  - unfold sum_range.
    apply (for_range_invariant
             (fun k (acc : F * F) =>
                acc = (for_range 0 k
                         (fun j t => (t + or_zero (get (metrics_prices m) j)
                                          * totalOutput (commodity commodities j))%num)
                         0%num,
                       for_range 0 k
                         (fun j t => (t + metrics_wage m
                                          * laborInput (commodity commodities j))%num)
                         0%num))).
    + lia.
    + rewrite !for_range_empty by lia. reflexivity.
    + intros k acc Hk ->. rewrite !for_range_last by lia. reflexivity.
Qed.

End Accounts.

Section ExactAccounts.

Context {F : Type} {N : Number F} (E : Exact N).

Add Field number_field_accounts : (exact_field E).

(** The price equation of industry [j], multiplied by its output. *)
Lemma industry_revenue
    (commodities : list Commodity) (matrix : list (list F)) (r w : F)
    (P : list F) (j : nat) :
  let totalOutputs := map totalOutput commodities in
  let laborVector := map laborInput commodities in
  let n := length commodities in
  is_solution n (system_matrix (coefficients matrix totalOutputs) n r)
    (unit_labor laborVector totalOutputs w) P ->
  j < n ->
  totalOutput (commodity commodities j) <> 0%num ->
  (get P j * totalOutput (commodity commodities j))%num
  = ((1 + r) * sum_range 0 n (fun i => (get P i * get2 matrix i j)%num)
     + w * laborInput (commodity commodities j))%num.
Proof.
  intros totalOutputs laborVector n Hsol Hj HX.
  assert (Hn : length totalOutputs = n) by (unfold totalOutputs; apply length_map).
  set (X := totalOutput (commodity commodities j)) in *.
  specialize (Hsol j Hj). unfold dot, sum_over in Hsol.
  rewrite (sum_range_ext _
             (fun i => (system_entry (coefficients matrix totalOutputs) r j i
                        * get P i)%num)) in Hsol.
  2:{ intros i Hi.
      change (get (row (system_matrix (coefficients matrix totalOutputs) n r) j) i)
        with (get2 (system_matrix (coefficients matrix totalOutputs) n r) j i).
      rewrite system_matrix_entry by lia. reflexivity. }
  rewrite (system_row_product E _ r P Hj) in Hsol.
  rewrite (sum_range_ext _
             (fun i => ((1 / X) * (get P i * get2 matrix i j))%num)) in Hsol.
  2:{ intros i Hi. rewrite coefficients_entry by lia.
      unfold coefficient. unfold totalOutputs at 1 2.
      rewrite get_map_totalOutput. fold X. rewrite (exact_eqb_false E HX).
      field. exact HX. }
  rewrite (sum_range_scale E) in Hsol.
  rewrite (get_unit_labor (N := N)) in Hsol by lia.
  unfold totalOutputs in Hsol at 1 2. unfold laborVector in Hsol.
  rewrite get_map_totalOutput, get_map_laborInput in Hsol. fold X in Hsol.
  rewrite (exact_eqb_false E HX) in Hsol.
  set (C := sum_range 0 n (fun i => (get P i * get2 matrix i j)%num)) in *.
  set (L := laborInput (commodity commodities j)) in *.
  replace (get P j)
    with ((get P j - (1 + r) * (1 / X * C)) + (1 + r) * (1 / X * C))%num by ring.
  rewrite Hsol. field. exact HX.
Qed.

(** X6: in exact arithmetic, when the solver returns prices and every
    commodity has a non-zero total output, the net product that [aggregates]
    reports (wages plus profits) is the gross output, the sum of price times
    total output, less the capital advanced: the identity that the comment at
    lines 73-74 of [src/App.tsx] relies on. *)
Theorem net_product_is_gross_output_less_capital
    (commodities : list Commodity) (matrix : list (list F)) (r w : F)
    (m : ComputedMetrics) (P : list F) :
  let totalOutputs := map totalOutput commodities in
  let laborVector := map laborInput commodities in
  let n := length commodities in
  square n matrix -> 1 <= n ->
  solveLinearSystem (system_matrix (coefficients matrix totalOutputs) n r)
    (unit_labor laborVector totalOutputs w) = Some P ->
  metrics_prices m = P -> metrics_wage m = w ->
  (forall j, j < n -> totalOutput (commodity commodities j) <> 0%num) ->
  exists a,
    aggregates m commodities matrix r = Some a /\
    fst (gross_and_wages m commodities)
    = sum_over n (fun j => (get P j * totalOutput (commodity commodities j))%num) /\
    totalCapital a
    = sum_over n (fun j => sum_over n (fun i => (get P i * get2 matrix i j)%num)) /\
    netProduct a = (fst (gross_and_wages m commodities) - totalCapital a)%num.
Proof.
  intros totalOutputs laborVector n _ Hn Hsolve HP Hw HX.
  assert (HlenX : length totalOutputs = n) by (unfold totalOutputs; apply length_map).
  destruct (@solve_some_exact F N E
              (system_matrix (coefficients matrix totalOutputs) n r)
              (unit_labor laborVector totalOutputs w) P n) as [HlenP Hsol].
  { apply system_matrix_square. }
  { rewrite (length_unit_labor (N := N)). exact HlenX. }
  { exact Hsolve. }
  assert (Hgross :
            fst (gross_and_wages m commodities)
            = sum_over n
                (fun j => (get P j * totalOutput (commodity commodities j))%num)).
  { rewrite gross_and_wages_sums. simpl. rewrite HP.
    apply sum_range_ext; intros j Hj. now rewrite (or_zero_exact E). }
  assert (Hwages :
            snd (gross_and_wages m commodities)
            = sum_over n (fun j => (w * laborInput (commodity commodities j))%num)).
  { rewrite gross_and_wages_sums. simpl. rewrite Hw. reflexivity. }
  assert (Hcapital :
            capital_advanced m commodities matrix
            = sum_over n (fun j => sum_over n (fun i => (get P i * get2 matrix i j)%num))).
  { unfold capital_advanced. fold n. rewrite HP.
    apply (@sum_range_ext F N 0 n
             (fun j => for_range 0 n
                         (fun i industryCapital =>
                            (industryCapital + or_zero (get P i) * get2 matrix i j)%num)
                         0%num)).
    intros j Hj.
    apply (@sum_range_ext F N 0 n
             (fun i => (or_zero (get P i) * get2 matrix i j)%num)).
    intros i Hi. now rewrite (or_zero_exact E). }
  unfold aggregates. rewrite HP.
  destruct (Nat.eqb_spec (length P) 0) as [H0|_]; [lia|].
  eexists; split; [reflexivity|]. simpl.
  split; [exact Hgross|]. split; [exact Hcapital|].
  rewrite Hwages, Hgross, Hcapital.
  unfold sum_over at 4.
  rewrite (sum_range_ext
             (fun j => (get P j * totalOutput (commodity commodities j))%num)
             (fun j => ((1 + r) * sum_over n (fun i => (get P i * get2 matrix i j)%num)
                        + w * laborInput (commodity commodities j))%num))
    by (intros j Hj; apply industry_revenue; [exact Hsol | lia | apply HX; lia]).
  rewrite (sum_range_plus E), (sum_range_scale E).
  unfold sum_over. ring.
Qed.

End ExactAccounts.

Lemma net_product_is_gross_output_less_capital_witness :
  exists a,
    aggregates Example.rational_metrics Example.rational_commodities
      Example.rational_matrix Example.rational_rate = Some a /\
    netProduct a
    = (fst (gross_and_wages Example.rational_metrics Example.rational_commodities)
       - totalCapital a)%num.
Proof.
  destruct (solveLinearSystem
              (system_matrix
                 (coefficients Example.rational_matrix
                    (map totalOutput Example.rational_commodities))
                 (length Example.rational_commodities) Example.rational_rate)
              (unit_labor (map laborInput Example.rational_commodities)
                 (map totalOutput Example.rational_commodities) (Q2Qc 1)))
    as [P|] eqn:Hsolve; [|vm_compute in Hsolve; discriminate].
  destruct (@net_product_is_gross_output_less_capital Qc Rational.number
              rational_exact Example.rational_commodities Example.rational_matrix
              Example.rational_rate (Q2Qc 1) Example.rational_metrics P)
    as [a [Ha [_ [_ Hnet]]]].
  - split; [reflexivity | repeat constructor].
  - simpl; lia.
  - exact Hsolve.
  - unfold Example.rational_metrics, calculateSraffianPrices. cbv zeta.
    change (length (map totalOutput Example.rational_commodities))
      with (length Example.rational_commodities).
    rewrite Hsolve. reflexivity.
  - reflexivity.
  - intros [|j] Hj; [discriminate | simpl in Hj; lia].
  - exists a. split; [exact Ha | exact Hnet].
Defined.

(** * The editing handlers *)

Section FilterFacts.

Context {A : Type}.

Lemma filter_indexed_keep_all (keep : nat -> bool) (i0 : nat) (a : list A) :
  (forall i, i0 <= i < i0 + length a -> keep i = true) ->
  filter_indexed keep i0 a = a.
Proof.
  revert i0; induction a as [|x t IH]; intros i0 Hkeep; simpl; [reflexivity|].
  rewrite Hkeep by (simpl; lia). f_equal. apply IH.
  intros i Hi; apply Hkeep; simpl; lia.
Qed.

(** Dropping the index [index] shifts what follows it by one. *)
Lemma nth_filter_indexed_drop (index i0 : nat) (a : list A) (k : nat) (d : A) :
  i0 <= index ->
  nth k (filter_indexed (fun i => negb (Nat.eqb i index)) i0 a) d
  = nth (if Nat.ltb k (index - i0) then k else S k) a d.
Proof.
  revert i0 k; induction a as [|x t IH]; intros i0 k Hle; simpl.
  - destruct (Nat.ltb k (index - i0)); destruct k; reflexivity.
  - destruct (Nat.eqb_spec i0 index) as [->|Hne]; simpl.
    + rewrite Nat.sub_diag.
      rewrite filter_indexed_keep_all
        by (intros i Hi; apply negb_true_iff, Nat.eqb_neq; lia).
      reflexivity.
    + destruct k as [|k].
      * replace (Nat.ltb 0 (index - i0)) with true
          by (symmetry; apply Nat.ltb_lt; lia). reflexivity.
      * simpl. rewrite IH by lia.
        replace (index - i0) with (S (index - S i0)) by lia.
        change (Nat.ltb (S k) (S (index - S i0))) with (Nat.ltb k (index - S i0)).
        destruct (Nat.ltb k (index - S i0)); reflexivity.
Qed.

Lemma length_filter_indexed_drop (index i0 : nat) (a : list A) :
  i0 <= index < i0 + length a ->
  S (length (filter_indexed (fun i => negb (Nat.eqb i index)) i0 a)) = length a.
Proof.
  revert i0; induction a as [|x t IH]; intros i0 Hin; simpl in *; [lia|].
  destruct (Nat.eqb_spec i0 index) as [->|Hne]; simpl.
  - rewrite filter_indexed_keep_all
      by (intros i Hi; apply negb_true_iff, Nat.eqb_neq; lia).
    reflexivity.
  - f_equal. apply IH. lia.
Qed.

Lemma filter_indexed_drop_last (i0 : nat) (a : list A) (x : A) :
  filter_indexed (fun i => negb (Nat.eqb i (i0 + length a))) i0 (a ++ [x]) = a.
Proof.
  revert i0; induction a as [|y t IH]; intros i0; simpl.
  - rewrite Nat.add_0_r, Nat.eqb_refl. reflexivity.
  - destruct (Nat.eqb_spec i0 (i0 + S (length t))) as [Heq|_]; [lia|]. simpl.
    f_equal. replace (i0 + S (length t)) with (S i0 + length t) by lia. apply IH.
Qed.

End FilterFacts.

Section HandlerFacts.

Context {F : Type} {N : Number F}.

Lemma fold_max_ge (l : list nat) (x : nat) :
  x <= fold_left Nat.max l x /\ forall y, In y l -> y <= fold_left Nat.max l x.
Proof.
  revert x; induction l as [|z l IH]; intros x; simpl.
  - split; [lia | intros y []].
  - destruct (IH (Nat.max x z)) as [H1 H2].
    pose proof (Nat.le_max_l x z). pose proof (Nat.le_max_r x z).
    split; [lia|]. intros y [Hy|Hy]; [subst y; lia | now apply H2].
Qed.

Lemma max_id_bounds (ids : list nat) (m : nat) :
  max_id ids = Some m -> forall y, In y ids -> y <= m.
Proof.
  destruct ids as [|x t]; simpl; [discriminate|].
  intros H; inversion H; subst m.
  destruct (fold_max_ge t x) as [H1 H2].
  intros y [Hy|Hy]; [subst y; exact H1 | exact (H2 y Hy)].
Qed.

Lemma max_id_nonempty (ids : list nat) :
  ids <> [] -> exists m, max_id ids = Some m.
Proof.
  destruct ids as [|x t]; [congruence|]. intros _. eexists; reflexivity.
Qed.

Lemma get2_app_rows (M M' : list (list F)) (i j : nat) :
  i < length M -> get2 (M ++ M') i j = get2 M i j.
Proof.
  intros Hi. unfold get2, row. now rewrite app_nth1.
Qed.

Lemma get_app_left (a a' : list F) (j : nat) :
  j < length a -> get (a ++ a') j = get a j.
Proof.
  intros Hj. unfold get. now rewrite app_nth1.
Qed.

Lemma row_map (f : list F -> list F) (M : list (list F)) (i : nat) :
  i < length M -> row (map f M) i = f (row M i).
Proof.
  intros Hi. unfold row.
  rewrite nth_indep with (d' := f []) by (rewrite length_map; exact Hi).
  apply map_nth.
Qed.

End HandlerFacts.

Lemma handleAddCommodity_spec
    (F : Type) (N : Number F)
    (commodities : list Commodity) (matrix : list (list F)) (n : nat) :
  length commodities = n -> 1 <= n -> square n matrix ->
  exists commodities' matrix',
    handleAddCommodity commodities matrix = Some (commodities', matrix') /\
    length commodities' = S n /\ square (S n) matrix' /\
    (forall i, i < n -> commodity commodities' i = commodity commodities i) /\
    (forall i j, i < n -> j < n -> get2 matrix' i j = get2 matrix i j) /\
    (forall k, k <= n -> get2 matrix' n k = 0%num /\ get2 matrix' k n = 0%num) /\
    totalOutput (commodity commodities' n) = lit_100 /\
    laborInput (commodity commodities' n) = of_nat 10.
Proof.
  intros Hlen Hn [HlenM Hrows]. unfold handleAddCommodity.
  destruct (@max_id_nonempty (map id commodities)) as [m Hm].
  { destruct commodities; [simpl in Hlen; lia | discriminate]. }
  rewrite Hm. cbv zeta. do 2 eexists. split; [reflexivity|].
  assert (Hrow : forall i, i < n -> length (row matrix i) = n).
  { intros i Hi. apply (@shaped_row F n n matrix i); [split; assumption | exact Hi]. }
  split; [rewrite length_app; simpl; lia|]. split; [split|].
  - rewrite length_app, length_map. simpl; lia.
  - apply Forall_app; split.
    + apply Forall_forall. intros r Hr. apply in_map_iff in Hr as [r0 [<- Hr0]].
      rewrite Forall_forall in Hrows. rewrite length_app, (Hrows r0 Hr0). simpl; lia.
    + constructor; [|constructor]. rewrite repeat_length. lia.
  - split; [|split; [|split; [|split]]].
    + intros i Hi. unfold commodity. apply app_nth1. lia.
    + intros i j Hi Hj. rewrite get2_app_rows by (rewrite length_map; lia).
      unfold get2. rewrite row_map by lia. apply get_app_left. rewrite Hrow; lia.
    + intros k Hk. split.
      * unfold get2, row. rewrite app_nth2 by (rewrite length_map; lia).
        rewrite length_map, HlenM, Nat.sub_diag. simpl.
        apply get_repeat. lia.
      * destruct (Nat.eq_dec k n) as [->|Hne].
        -- unfold get2, row. rewrite app_nth2 by (rewrite length_map; lia).
           rewrite length_map, HlenM, Nat.sub_diag. simpl. apply get_repeat. lia.
        -- rewrite get2_app_rows by (rewrite length_map; lia).
           unfold get2. rewrite row_map by lia.
           unfold get. rewrite app_nth2 by (rewrite Hrow; lia).
           rewrite Hrow by lia. rewrite Nat.sub_diag. reflexivity.
    + unfold commodity. rewrite app_nth2 by lia.
      rewrite Hlen, Nat.sub_diag. reflexivity.
    + unfold commodity. rewrite app_nth2 by lia.
      rewrite Hlen, Nat.sub_diag. reflexivity.
Qed.

(** X7: on a dimension-consistent snapshot with at least one commodity,
    [handleAddCommodity] yields a dimension-consistent snapshot with one more
    commodity: the commodities and matrix entries already there are
    untouched, the new commodity has total output 100 and labor input 10, and
    its row and its column of the matrix are zero. *)
Theorem add_commodity_extends_snapshot
    (F : Type) (N : Number F)
    (commodities : list Commodity) (matrix : list (list F)) (n : nat) :
  length commodities = n -> 1 <= n -> square n matrix ->
  exists commodities' matrix',
    handleAddCommodity commodities matrix = Some (commodities', matrix') /\
    length commodities' = S n /\ square (S n) matrix' /\
    (forall i, i < n -> commodity commodities' i = commodity commodities i) /\
    (forall i j, i < n -> j < n -> get2 matrix' i j = get2 matrix i j) /\
    (forall k, k <= n -> get2 matrix' n k = 0%num /\ get2 matrix' k n = 0%num) /\
    totalOutput (commodity commodities' n) = lit_100 /\
    laborInput (commodity commodities' n) = of_nat 10.
Proof.
  intros Hlen Hn Hsq. now apply handleAddCommodity_spec.
Qed.

Lemma add_commodity_extends_snapshot_witness :
  exists commodities' matrix',
    handleAddCommodity Example.INITIAL_COMMODITIES Example.INITIAL_MATRIX
    = Some (commodities', matrix') /\
    length commodities' = 3 /\ square 3 matrix'.
Proof.
  destruct (@add_commodity_extends_snapshot float Binary64.number
              Example.INITIAL_COMMODITIES Example.INITIAL_MATRIX 2)
    as [cs [M [H1 [H2 [H3 _]]]]].
  - reflexivity.
  - lia.
  - split; [reflexivity | repeat constructor].
  - exists cs, M. split; [exact H1|]. split; [exact H2 | exact H3].
Defined.

(** ** Identifiers *)

(** The rounding of [round_binary64] is that of binary64 addition. *)
Lemma round_binary64_is_binary64_addition :
  forallb
    (fun m => PrimFloat.Leibniz.eqb
                (binary64_of_N m + 1)%float
                (binary64_of_N (round_binary64 (m + 1))))
    Scenario.identifiers = true.
Proof.
  vm_compute. reflexivity.
Qed.

Lemma round_binary64_small (z : N) :
  (z <= 2 ^ 53)%N -> round_binary64 z = z.
Proof.
  intros Hz. destruct (N.eq_dec z (2 ^ 53)%N) as [->|Hne].
  - vm_compute. reflexivity.
  - unfold round_binary64.
    destruct (N.eq_dec z 0%N) as [->|Hpos]; [reflexivity|].
    assert (Hlog : (N.log2 z < 53)%N) by (apply N.log2_lt_pow2; lia).
    apply N.ltb_lt in Hlog. now rewrite Hlog.
Qed.

Lemma plus_one_exact (m : nat) :
  (N.of_nat m < 2 ^ 53)%N -> plus_one m = m + 1.
Proof.
  intros Hm. unfold plus_one. rewrite round_binary64_small by lia. lia.
Qed.

Lemma plus_one_saturates (m : nat) :
  N.of_nat m = (2 ^ 53)%N -> plus_one m = m.
Proof.
  intros Hm. unfold plus_one. rewrite Hm.
  replace (round_binary64 (2 ^ 53 + 1)) with (2 ^ 53)%N
    by (vm_compute; reflexivity).
  rewrite <- Hm. apply Nnat.Nat2N.id.
Qed.

Lemma fold_max_in (l : list nat) (x : nat) :
  fold_left Nat.max l x = x \/ In (fold_left Nat.max l x) l.
Proof.
  revert x; induction l as [|z l IH]; intros x; simpl; [now left|].
  destruct (IH (Nat.max x z)) as [H|H]; [|now right; right].
  rewrite H. destruct (Nat.max_spec x z) as [[_ ->]|[_ ->]]; [right; now left | now left].
Qed.

Lemma max_id_in (ids : list nat) (m : nat) : max_id ids = Some m -> In m ids.
Proof.
  destruct ids as [|x t]; simpl; [discriminate|].
  intros H; inversion H.
  destruct (fold_max_in t x) as [->|Hin]; [now left | now right].
Qed.

(** From 2^53 on the sum [max + 1] can round back to [max]: when the largest
    identifier is 2^53, the new commodity gets that identifier again. *)
Lemma add_commodity_id_saturates
    (F : Type) (N : Number F)
    (commodities commodities' : list Commodity) (matrix matrix' : list (list F))
    (c : Commodity) :
  handleAddCommodity commodities matrix = Some (commodities', matrix') ->
  In c commodities -> N.of_nat (id c) = (2 ^ 53)%N ->
  (forall c', In c' commodities -> id c' <= id c) ->
  id (commodity commodities' (length commodities)) = id c /\
  ~ NoDup (map id commodities').
Proof.
  unfold handleAddCommodity. destruct (max_id (map id commodities)) as [m|] eqn:Hm;
    [|discriminate].
  cbv zeta. intros H Hc Hid Hmax; inversion H; subst commodities' matrix'; clear H.
  assert (Hm' : m = id c).
  { apply Nat.le_antisymm.
    - apply max_id_in in Hm. apply in_map_iff in Hm as [c' [<- Hc']]. now apply Hmax.
    - apply (max_id_bounds _ Hm). now apply in_map. }
  subst m.
  assert (Hnew : plus_one (if Nat.eqb (id c) 0 then 0 else id c) = id c).
  { destruct (Nat.eqb_spec (id c) 0) as [H0|_]; [rewrite H0 in Hid; discriminate|].
    now apply plus_one_saturates. }
  rewrite Hnew. split.
  - unfold commodity. rewrite app_nth2 by lia. rewrite Nat.sub_diag. reflexivity.
  - rewrite map_app. simpl. intros Hnodup.
    apply NoDup_remove_2 in Hnodup. apply Hnodup.
    rewrite app_nil_r. now apply in_map.
Qed.

(** X8: when every identifier in use is below 2^53, the identifier that
    [handleAddCommodity] gives the new commodity is larger than every one of
    them, so identifiers that were pairwise distinct stay so.  The sum
    [max + 1] is a binary64 sum, exact below 2^53. *)
Theorem add_commodity_fresh_id
    (F : Type) (N : Number F)
    (commodities commodities' : list Commodity) (matrix matrix' : list (list F)) :
  handleAddCommodity commodities matrix = Some (commodities', matrix') ->
  (forall c, In c commodities -> (N.of_nat (id c) < 2 ^ 53)%N) ->
  (forall c, In c commodities ->
     id c < id (commodity commodities' (length commodities))) /\
  (NoDup (map id commodities) -> NoDup (map id commodities')).
Proof.
  unfold handleAddCommodity. destruct (max_id (map id commodities)) as [m|] eqn:Hm;
    [|discriminate].
  cbv zeta. intros H Hsmall; inversion H; subst commodities' matrix'; clear H.
  assert (Hm53 : (N.of_nat m < 2 ^ 53)%N).
  { pose proof (max_id_in _ Hm) as Hin.
    apply in_map_iff in Hin as [c [<- Hc]]. now apply Hsmall. }
  assert (Hnew : plus_one (if Nat.eqb m 0 then 0 else m) = S m).
  { destruct (Nat.eqb_spec m 0) as [->|_].
    - now rewrite plus_one_exact.
    - rewrite plus_one_exact by exact Hm53. lia. }
  rewrite Hnew.
  assert (Hbound : forall c, In c commodities -> id c <= m).
  { intros c Hc. apply (max_id_bounds _ Hm). now apply in_map. }
  split.
  - intros c Hc. unfold commodity. rewrite app_nth2 by lia.
    rewrite Nat.sub_diag. simpl. specialize (Hbound c Hc). lia.
  - intros Hnodup. rewrite map_app. simpl.
    apply NoDup_app_remove_l with (l := []). simpl.
    apply NoDup_Add with (a := S m) (l := map id commodities).
    + rewrite <- (app_nil_r (map id commodities)) at 1.
      apply Add_app.
    + split; [exact Hnodup|]. intros Hin. apply in_map_iff in Hin as [c [Hid Hc]].
      specialize (Hbound c Hc). lia.
Qed.

Lemma add_commodity_fresh_id_witness :
  exists commodities' matrix',
    handleAddCommodity Example.INITIAL_COMMODITIES Example.INITIAL_MATRIX
    = Some (commodities', matrix') /\
    map id commodities' = [1; 2; 3] /\
    NoDup (map id commodities').
Proof.
  destruct (handleAddCommodity Example.INITIAL_COMMODITIES Example.INITIAL_MATRIX)
    as [[cs M]|] eqn:Hadd; [|vm_compute in Hadd; discriminate].
  exists cs, M. split; [reflexivity|]. split.
  - vm_compute in Hadd. inversion Hadd. reflexivity.
  - apply (@add_commodity_fresh_id float Binary64.number
             Example.INITIAL_COMMODITIES cs Example.INITIAL_MATRIX M Hadd).
    + intros c [<-|[<-|[]]]; reflexivity.
    + simpl. repeat constructor; simpl; intuition discriminate.
Defined.

(** X9: [handleRemoveCommodity] never removes the last commodity.  On a
    dimension-consistent snapshot of two or more commodities it drops the
    commodity at [index] together with its row and its column, leaving a
    dimension-consistent snapshot in which what followed [index] has moved
    up by one; with a single commodity it changes nothing. *)
Theorem remove_commodity_shrinks_snapshot
    (F : Type) (N : Number F)
    (commodities : list Commodity) (matrix : list (list F)) (n index : nat) :
  length commodities = n -> square n matrix ->
  let commodities' := fst (handleRemoveCommodity commodities matrix index) in
  let matrix' := snd (handleRemoveCommodity commodities matrix index) in
  let skip := fun k => if Nat.ltb k index then k else S k in
  (1 <= n -> 1 <= length commodities') /\
  (n <= 1 -> commodities' = commodities /\ matrix' = matrix) /\
  (2 <= n -> index < n ->
     S (length commodities') = n /\ square (n - 1) matrix' /\
     (forall i, commodity commodities' i = commodity commodities (skip i)) /\
     (forall i j, get2 matrix' i j = get2 matrix (skip i) (skip j))).
Proof.
  intros Hlen [HlenM Hrows]. unfold handleRemoveCommodity. rewrite Hlen.
  destruct (Nat.leb_spec n 1) as [Hle|Hgt]; simpl.
  - split; [intros H; lia|]. split; [intros _; split; reflexivity | intros H; lia].
  - assert (Hshift : forall (A : Type) (l : list A) (k : nat) (d : A),
              nth k (filter_indexed (fun i => negb (Nat.eqb i index)) 0 l) d
              = nth (if Nat.ltb k index then k else S k) l d).
    { intros A l k d. rewrite nth_filter_indexed_drop by lia.
      now rewrite Nat.sub_0_r. }
    assert (Hrow : forall i,
              row (map (fun r => filter_indexed (fun c => negb (Nat.eqb c index)) 0 r)
                     (filter_indexed (fun r => negb (Nat.eqb r index)) 0 matrix)) i
              = filter_indexed (fun c => negb (Nat.eqb c index)) 0
                  (row matrix (if Nat.ltb i index then i else S i))).
    { intros i. unfold row.
      change (@nil F)
        with (filter_indexed (fun c => negb (Nat.eqb c index)) 0 (@nil F)) at 1.
      rewrite map_nth. now rewrite Hshift. }
    split; [|split; [intros H; lia|]].
    + intros _. destruct (le_lt_dec n index) as [Hout|Hin].
      * rewrite filter_indexed_keep_all
          by (intros i Hi; apply negb_true_iff, Nat.eqb_neq; lia). lia.
      * pose proof (@length_filter_indexed_drop _ index 0 commodities ltac:(lia)). lia.
    + intros _ Hin.
      split; [rewrite <- Hlen; apply length_filter_indexed_drop; lia|].
      split; [split|split].
      * rewrite length_map.
        pose proof (@length_filter_indexed_drop _ index 0 matrix ltac:(lia)). lia.
      * apply Forall_forall. intros r Hr.
        destruct (In_nth _ _ [] Hr) as [i [Hi <-]].
        change (nth i ?M []) with (row M i). rewrite Hrow.
        rewrite length_map in Hi.
        pose proof (@length_filter_indexed_drop _ index 0 matrix ltac:(lia)) as HM.
        assert (Hr' : length (row matrix (if Nat.ltb i index then i else S i)) = n).
        { apply (@shaped_row F n n matrix); [split; assumption|].
          destruct (Nat.ltb_spec i index); lia. }
        pose proof (@length_filter_indexed_drop _ index 0
                      (row matrix (if Nat.ltb i index then i else S i))
                      ltac:(lia)). lia.
      * intros i. unfold commodity. apply Hshift.
      * intros i j. unfold get2. rewrite Hrow. unfold get. apply Hshift.
Qed.

Lemma remove_commodity_shrinks_snapshot_witness :
  length (fst (handleRemoveCommodity Example.INITIAL_COMMODITIES
                 Example.INITIAL_MATRIX 0)) = 1 /\
  1 <= length (fst (handleRemoveCommodity Example.idle_commodities
                      Example.idle_matrix 0)).
Proof.
  split.
  - destruct (@remove_commodity_shrinks_snapshot float Binary64.number
                Example.INITIAL_COMMODITIES Example.INITIAL_MATRIX 2 0)
      as [_ [_ H]].
    + reflexivity.
    + split; [reflexivity | repeat constructor].
    + destruct (H ltac:(lia) ltac:(lia)) as [Hlen _]. lia.
  - apply (@remove_commodity_shrinks_snapshot float Binary64.number
             Example.idle_commodities Example.idle_matrix 1 0).
    + reflexivity.
    + split; [reflexivity | repeat constructor].
    + lia.
Defined.

(** X10: removing the commodity just added undoes the addition: on a
    dimension-consistent snapshot, [handleRemoveCommodity] at the last index
    after [handleAddCommodity] gives back the commodities and the matrix. *)
Theorem remove_after_add_is_identity
    (F : Type) (N : Number F)
    (commodities commodities' : list Commodity) (matrix matrix' : list (list F))
    (n : nat) :
  length commodities = n -> square n matrix ->
  handleAddCommodity commodities matrix = Some (commodities', matrix') ->
  handleRemoveCommodity commodities' matrix' n = (commodities, matrix).
Proof.
  intros Hlen [HlenM Hrows]. subst n. unfold handleAddCommodity.
  destruct (max_id (map id commodities)) as [m|] eqn:Hm; [|discriminate].
  cbv zeta. intros H; inversion H; subst commodities' matrix'; clear H.
  assert (Hn : 1 <= length commodities).
  { destruct commodities; [discriminate | simpl; lia]. }
  unfold handleRemoveCommodity. rewrite length_app. simpl.
  destruct (Nat.leb_spec (length commodities + 1) 1) as [Hle|_]; [lia|].
  f_equal.
  - apply (filter_indexed_drop_last 0).
  - rewrite <- HlenM in *.
    pose proof (filter_indexed_drop_last 0
                  (map (fun row => row ++ [0%num]) matrix)
                  (repeat 0%num (length matrix + 1))) as Hdrop.
    rewrite length_map in Hdrop. simpl in Hdrop. rewrite Hdrop, map_map.
    rewrite <- (map_id matrix) at 2. apply map_ext_in.
    intros r Hr. rewrite Forall_forall in Hrows.
    pose proof (filter_indexed_drop_last 0 r 0%num) as Hcol.
    rewrite (Hrows r Hr) in Hcol. exact Hcol.
Qed.

Lemma remove_after_add_is_identity_witness :
  exists commodities' matrix',
    handleAddCommodity Example.INITIAL_COMMODITIES Example.INITIAL_MATRIX
    = Some (commodities', matrix') /\
    handleRemoveCommodity commodities' matrix' 2
    = (Example.INITIAL_COMMODITIES, Example.INITIAL_MATRIX).
Proof.
  destruct (handleAddCommodity Example.INITIAL_COMMODITIES Example.INITIAL_MATRIX)
    as [[cs M]|] eqn:Hadd; [|vm_compute in Hadd; discriminate].
  exists cs, M. split; [reflexivity|].
  apply (@remove_after_add_is_identity float Binary64.number
           Example.INITIAL_COMMODITIES cs Example.INITIAL_MATRIX M 2).
  - reflexivity.
  - split; [reflexivity | repeat constructor].
  - exact Hadd.
Defined.

Section UpdateFacts.

Context {F : Type} {N : Number F}.

Lemma upd_beyond {A : Type} (a : list A) (i : nat) (x : A) :
  length a <= i -> upd a i x = a.
Proof.
  revert i; induction a as [|h t IH]; intros [|i] Hi; simpl in *;
    try reflexivity; try lia.
  f_equal; apply IH; lia.
Qed.

Lemma commodity_after_update (commodities : list Commodity) (index k : nat)
    (u : FieldUpdate) :
  commodity (handleCommodityUpdate commodities index u) k
  = if Nat.eqb k index && Nat.ltb index (length commodities)
    then with_field (commodity commodities index) u
    else commodity commodities k.
Proof.
  unfold handleCommodityUpdate, commodity.
  destruct (Nat.ltb_spec index (length commodities)) as [Hin|Hout].
  - destruct (Nat.eqb_spec k index) as [->|Hne]; simpl.
    + now apply nth_upd_same.
    + apply nth_upd_other; congruence.
  - rewrite upd_beyond by exact Hout. now rewrite andb_false_r.
Qed.

Lemma map_field_after_rename (f : Commodity -> F) (commodities : list Commodity)
    (index : nat) (s : String.string) :
  (forall c, f (with_field c (SetName s)) = f c) ->
  map f (handleCommodityUpdate commodities index (SetName s)) = map f commodities.
Proof.
  intros Hf.
  apply (nth_ext _ _ (f (commodity [] 0)) (f (commodity [] 0))).
  - unfold handleCommodityUpdate. now rewrite !length_map, length_upd.
  - intros k _. rewrite !map_nth.
    change (nth k ?l (commodity [] 0)) with (commodity l k).
    rewrite commodity_after_update.
    destruct (Nat.eqb_spec k index) as [->|_]; simpl; [|reflexivity].
    destruct (Nat.ltb index (length commodities)); [apply Hf | reflexivity].
Qed.

End UpdateFacts.

(** X11: renaming one of the commodities changes none of the computed
    figures: the metrics, the aggregates and every cost breakdown are those of
    the snapshot before the renaming.  The index is that of a commodity in the
    list, as [handleCommodityUpdate] is modelled for such indices only. *)
Theorem rename_changes_no_figure
    (F : Type) (N : Number F) (Q : MathSqrt F)
    (commodities : list Commodity) (matrix : list (list F)) (r w : F)
    (index : nat) (s : String.string) :
  index < length commodities ->
  let renamed := handleCommodityUpdate commodities index (SetName s) in
  let m := metrics commodities matrix r w in
  metrics renamed matrix r w = m /\
  aggregates m renamed matrix r = aggregates m commodities matrix r /\
  forall idx, getCostBreakdown m renamed matrix r idx
              = getCostBreakdown m commodities matrix r idx.
Proof.
  intros _ renamed m.
  assert (HX : map totalOutput renamed = map totalOutput commodities)
    by (apply map_field_after_rename; reflexivity).
  assert (HL : map laborInput renamed = map laborInput commodities)
    by (apply map_field_after_rename; reflexivity).
  assert (Hlen : length renamed = length commodities)
    by (unfold renamed, handleCommodityUpdate; apply length_upd).
  assert (Hout : forall k, totalOutput (commodity renamed k)
                           = totalOutput (commodity commodities k)).
  { intros k. unfold renamed. rewrite commodity_after_update.
    destruct (Nat.eqb_spec k index) as [->|_]; simpl; [|reflexivity].
    destruct (Nat.ltb index (length commodities)); reflexivity. }
  assert (Hlab : forall k, laborInput (commodity renamed k)
                           = laborInput (commodity commodities k)).
  { intros k. unfold renamed. rewrite commodity_after_update.
    destruct (Nat.eqb_spec k index) as [->|_]; simpl; [|reflexivity].
    destruct (Nat.ltb index (length commodities)); reflexivity. }
  split; [|split].
  - unfold m, metrics. now rewrite HX, HL.
  - unfold aggregates, capital_advanced.
    rewrite !gross_and_wages_sums, Hlen. simpl.
    rewrite (sum_range_ext
               (fun j => (metrics_wage m * laborInput (commodity renamed j))%num)
               (fun j => (metrics_wage m * laborInput (commodity commodities j))%num))
      by (intros j _; now rewrite Hlab).
    reflexivity.
  - intros idx. unfold getCostBreakdown. rewrite Hlen, Hout, Hlab. reflexivity.
Qed.

Lemma rename_changes_no_figure_witness :
  metrics
    (handleCommodityUpdate Example.INITIAL_COMMODITIES 0
       (SetName (Names.comm_name 7)))
    Example.INITIAL_MATRIX Example.initial_rate 1%float
  = metrics Example.INITIAL_COMMODITIES Example.INITIAL_MATRIX
      Example.initial_rate 1%float.
Proof.
  apply (@rename_changes_no_figure float Binary64.number Binary64.math_sqrt
           Example.INITIAL_COMMODITIES Example.INITIAL_MATRIX
           Example.initial_rate 1%float 0 (Names.comm_name 7)).
  simpl; lia.
Defined.

(** X12: an edit of the cell [(row, col)] of a dimension-consistent matrix
    whose text parses to NaN is dropped; any other stores the parsed number
    in that cell and leaves the rest alone.  Either way the matrix stays
    dimension-consistent, and a matrix free of NaN stays free of NaN. *)
Theorem matrix_edit_never_stores_nan
    (F : Type) (N : Number F)
    (matrix : list (list F)) (n row col : nat) (num : F) :
  square n matrix -> row < n -> col < n ->
  let edited := handleMatrixChange matrix row col num in
  square n edited /\
  (is_nan num = true -> edited = matrix) /\
  (is_nan num = false -> get2 edited row col = num) /\
  (forall i j, i <> row \/ j <> col -> get2 edited i j = get2 matrix i j) /\
  ((forall i j, i < n -> j < n -> is_nan (get2 matrix i j) = false) ->
   forall i j, i < n -> j < n -> is_nan (get2 edited i j) = false).
Proof.
  intros Hsq Hrow Hcol edited. unfold edited, handleMatrixChange.
  rewrite map_id. pose proof (proj1 Hsq) as HlenM.
  pose proof (shaped_row Hsq Hrow) as Hlenr.
  destruct (is_nan num) eqn:Hnan.
  - split; [exact Hsq|]. split; [reflexivity|]. split; [discriminate|].
    split; [reflexivity | auto].
  - assert (Hget : forall i j,
              get2 (upd2 matrix row col num) i j
              = if Nat.eqb i row && Nat.eqb j col then num else get2 matrix i j)
      by (intros i j; apply get2_upd2; lia).
    split; [now apply shaped_upd2|]. split; [discriminate|]. split; [|split].
    + intros _. now rewrite Hget, !Nat.eqb_refl.
    + intros i j Hij. rewrite Hget.
      destruct (Nat.eqb_spec i row), (Nat.eqb_spec j col); simpl;
        try reflexivity. destruct Hij; congruence.
    + intros Hfree i j Hi Hj. rewrite Hget.
      destruct (Nat.eqb i row && Nat.eqb j col); [exact Hnan | now apply Hfree].
Qed.

Lemma matrix_edit_never_stores_nan_witness :
  handleMatrixChange Example.INITIAL_MATRIX 0 1 nan = Example.INITIAL_MATRIX /\
  get2 (handleMatrixChange Example.INITIAL_MATRIX 0 1 7%float) 0 1 = 7%float.
Proof.
  destruct (@matrix_edit_never_stores_nan float Binary64.number
              Example.INITIAL_MATRIX 2 0 1 nan) as [_ [Hdrop _]];
    [split; [reflexivity | repeat constructor] | lia | lia |].
  destruct (@matrix_edit_never_stores_nan float Binary64.number
              Example.INITIAL_MATRIX 2 0 1 7%float) as [_ [_ [Hset _]]];
    [split; [reflexivity | repeat constructor] | lia | lia |].
  split; [apply Hdrop; reflexivity | apply Hset; reflexivity].
Defined.

(** * Adding a commodity and the prices *)

Section ExtendedSystem.

Context {F : Type} {N : Number F} (E : Exact N).

Add Field number_field_extended : (exact_field E).

Lemma zero_over (x : F) : x <> 0%num -> (0 / x)%num = 0%num.
Proof.
  intros Hx. field. exact Hx.
Qed.

(** A zero input over any output is a zero coefficient. *)
Lemma zero_coefficient (inputMatrix : list (list F)) (totalOutputs : list F)
    (i j : nat) :
  get2 inputMatrix i j = 0%num ->
  coefficient inputMatrix totalOutputs i j = 0%num.
Proof.
  intros Hzero. unfold coefficient. rewrite Hzero.
  destruct (eqb (get totalOutputs j) 0%num) eqn:Heq; [reflexivity|].
  apply zero_over. intros HX. rewrite HX, (exact_eqb_refl E) in Heq. discriminate.
Qed.

Lemma extended_system_solution
    (matrix : list (list F)) (X L : list F) (r w x_new l_new : F)
    (P : list F) (n : nat) :
  length X = n -> length L = n -> square n matrix -> length P = n ->
  is_solution n (system_matrix (coefficients matrix X) n r) (unit_labor L X w) P ->
  is_solution (S n)
    (system_matrix
       (coefficients (map (fun row => row ++ [0%num]) matrix ++ [repeat 0%num (n + 1)])
          (X ++ [x_new]))
       (S n) r)
    (unit_labor (L ++ [l_new]) (X ++ [x_new]) w)
    (P ++ [get (unit_labor (L ++ [l_new]) (X ++ [x_new]) w) n]).
Proof.
  intros HX HL Hsq HP Hsol.
  set (M' := map (fun row => row ++ [0%num]) matrix ++ [repeat 0%num (n + 1)]).
  set (X' := X ++ [x_new]). set (L' := L ++ [l_new]).
  set (v := get (unit_labor L' X' w) n).
  assert (HX' : length X' = S n) by (unfold X'; rewrite length_app; simpl; lia).
  pose proof (proj1 Hsq) as HlenM.
  assert (Hrowlen : forall i, i < n -> length (row matrix i) = n)
    by (intros i Hi; exact (shaped_row Hsq Hi)).
  assert (Hold : forall i j, i < n -> j < n -> get2 M' i j = get2 matrix i j).
  { intros i j Hi Hj. unfold M'.
    rewrite get2_app_rows by (rewrite length_map; lia).
    unfold get2. rewrite row_map by lia. apply get_app_left. rewrite Hrowlen; lia. }
  assert (Hnewrow : forall j, j <= n -> get2 M' n j = 0%num).
  { intros j Hj. unfold M', get2, row.
    rewrite app_nth2 by (rewrite length_map; lia).
    rewrite length_map, HlenM, Nat.sub_diag. simpl. apply get_repeat. lia. }
  assert (Hnewcol : forall i, i < n -> get2 M' i n = 0%num).
  { intros i Hi. unfold M'.
    rewrite get2_app_rows by (rewrite length_map; lia).
    unfold get2. rewrite row_map by lia.
    unfold get. rewrite app_nth2 by (rewrite Hrowlen; lia).
    rewrite Hrowlen by lia. rewrite Nat.sub_diag. reflexivity. }
  assert (HXold : forall k, k < n -> get X' k = get X k)
    by (intros k Hk; apply get_app_left; lia).
  assert (HLold : forall k, k < n -> get L' k = get L k)
    by (intros k Hk; apply get_app_left; lia).
  assert (HA : forall j k, j < S n -> k < S n ->
            get2 (coefficients M' X') j k
            = if Nat.ltb j n && Nat.ltb k n then get2 (coefficients matrix X) j k
              else 0%num).
  { intros j k Hj Hk. rewrite coefficients_entry by lia.
    destruct (Nat.ltb_spec j n) as [Hjn|Hjn]; simpl.
    - destruct (Nat.ltb_spec k n) as [Hkn|Hkn].
      + rewrite coefficients_entry by lia. unfold coefficient.
        now rewrite HXold, Hold.
      + apply zero_coefficient. replace k with n by lia. now apply Hnewcol.
    - apply zero_coefficient. replace j with n by lia. apply Hnewrow. lia. }
  assert (Hy : forall j, j < n -> get (P ++ [v]) j = get P j)
    by (intros j Hj; apply get_app_left; lia).
  assert (Hyn : get (P ++ [v]) n = v).
  { unfold get. rewrite app_nth2 by lia. rewrite HP, Nat.sub_diag. reflexivity. }
  intros k Hk. unfold dot, sum_over.
  rewrite (sum_range_last (N := N)) by lia. rewrite Hyn.
  change (get (row ?S' k) n) with (get2 S' k n).
  rewrite system_matrix_entry by lia.
  destruct (Nat.eq_dec k n) as [->|Hne].
  - rewrite (sum_range_zero E).
    + unfold system_entry. rewrite Nat.eqb_refl, HA by lia.
      rewrite Nat.ltb_irrefl. simpl. fold v. ring.
    + intros j Hj. change (get (row ?S' n) j) with (get2 S' n j).
      rewrite system_matrix_entry by lia. unfold system_entry.
      destruct (Nat.eqb_spec n j); [lia|]. rewrite HA by lia.
      rewrite Nat.ltb_irrefl, andb_false_r. ring.
  - assert (Hkn : k < n) by lia.
    rewrite (sum_range_ext _
               (fun j => (get (row (system_matrix (coefficients matrix X) n r) k) j
                          * get P j)%num)).
    + specialize (Hsol k Hkn). unfold dot, sum_over in Hsol. rewrite Hsol.
      unfold system_entry. destruct (Nat.eqb_spec k n); [lia|].
      rewrite HA by lia. rewrite Nat.ltb_irrefl. simpl.
      rewrite !(get_unit_labor (N := N)) by lia.
      rewrite HXold, HLold by lia.
      destruct (eqb (get X k) 0%num); ring.
    + intros j Hj. rewrite Hy by lia.
      change (get (row ?S' k) j) with (get2 S' k j).
      rewrite !system_matrix_entry by lia. unfold system_entry.
      rewrite HA by lia.
      replace (Nat.ltb j n) with true by (symmetry; apply Nat.ltb_lt; lia).
      replace (Nat.ltb k n) with true by (symmetry; apply Nat.ltb_lt; lia).
      reflexivity.
Qed.

End ExtendedSystem.

(** X13: in exact arithmetic, adding a commodity changes no price: when the
    solver returns prices before and after [handleAddCommodity], every
    commodity that was there keeps its price, and the new one, which uses no
    input and enters no industry, is priced at its unit labor cost,
    [(10 / 100) * w]. *)
Theorem add_commodity_keeps_prices
    (F : Type) (N : Number F) (E : Exact N)
    (commodities commodities' : list Commodity) (matrix matrix' : list (list F))
    (r w : F) (P P' : list F) (n : nat) :
  let X := map totalOutput commodities in
  let L := map laborInput commodities in
  let X' := map totalOutput commodities' in
  let L' := map laborInput commodities' in
  length commodities = n -> square n matrix ->
  handleAddCommodity commodities matrix = Some (commodities', matrix') ->
  solveLinearSystem (system_matrix (coefficients matrix X) (length X) r)
    (unit_labor L X w) = Some P ->
  solveLinearSystem (system_matrix (coefficients matrix' X') (length X') r)
    (unit_labor L' X' w) = Some P' ->
  prices (calculateSraffianPrices matrix L X r w) = P /\
  prices (calculateSraffianPrices matrix' L' X' r w) = P' /\
  (forall i, i < n -> get P' i = get P i) /\
  get P' n = (if eqb lit_100 0%num then 0%num else (of_nat 10 / lit_100 * w)%num).
Proof.
  intros X L X' L' Hlen Hsq Hadd Hsolve Hsolve'.
  split; [unfold calculateSraffianPrices; now rewrite Hsolve|].
  split; [unfold calculateSraffianPrices; now rewrite Hsolve'|].
  unfold handleAddCommodity in Hadd.
  destruct (max_id (map id commodities)) as [m|]; [|discriminate].
  cbv zeta in Hadd. inversion Hadd; subst commodities' matrix'; clear Hadd.
  assert (HX : length X = n) by (unfold X; now rewrite length_map).
  assert (HL : length L = n) by (unfold L; now rewrite length_map).
  unfold X', L' in Hsolve'. clear X' L'. rewrite !map_app in Hsolve'.
  simpl in Hsolve'. fold X in Hsolve'. fold L in Hsolve'.
  rewrite length_app, HX, Hlen in Hsolve'. simpl in Hsolve'.
  replace (n + 1) with (S n) in Hsolve' by lia.
  rewrite HX in Hsolve.
  destruct (@solve_some_exact F N E (system_matrix (coefficients matrix X) n r)
              (unit_labor L X w) P n) as [HlenP Hsol].
  { apply system_matrix_square. }
  { rewrite (length_unit_labor (N := N)). exact HX. }
  { exact Hsolve. }
  pose proof (@extended_system_solution F N E matrix X L r w lit_100 (of_nat 10)
                P n HX HL Hsq HlenP Hsol) as Hext.
  replace (n + 1) with (S n) in Hext by lia.
  assert (Hl' : length (unit_labor (L ++ [of_nat 10]) (X ++ [lit_100]) w) = S n).
  { rewrite (length_unit_labor (N := N)), length_app, HX. simpl; lia. }
  pose proof (@solve_unique_entries F N E _ _ P' _ (S n)
                (system_matrix_square _ (S n) r) Hl' Hsolve' Hext) as Huniq.
  assert (Hlast : get (unit_labor (L ++ [of_nat 10]) (X ++ [lit_100]) w) n
                  = if eqb lit_100 0%num then 0%num
                    else (of_nat 10 / lit_100 * w)%num).
  { rewrite (get_unit_labor (N := N)) by (rewrite length_app, HX; simpl; lia).
    unfold get. rewrite !app_nth2 by lia. rewrite HX, HL, Nat.sub_diag. reflexivity. }
  split.
  - intros i Hi. rewrite <- Huniq by lia. apply get_app_left. lia.
  - rewrite <- Huniq by lia. rewrite <- Hlast.
    unfold get at 1. rewrite app_nth2 by lia. rewrite HlenP, Nat.sub_diag. reflexivity.
Qed.

Lemma add_commodity_keeps_prices_witness :
  exists commodities' matrix',
    handleAddCommodity Example.rational_commodities Example.rational_matrix
    = Some (commodities', matrix') /\
    get (prices (calculateSraffianPrices matrix'
                   (map laborInput commodities') (map totalOutput commodities')
                   Example.rational_rate (Q2Qc 1))) 0
    = get (prices (calculateSraffianPrices Example.rational_matrix
                     (map laborInput Example.rational_commodities)
                     (map totalOutput Example.rational_commodities)
                     Example.rational_rate (Q2Qc 1))) 0.
Proof.
  destruct (handleAddCommodity Example.rational_commodities Example.rational_matrix)
    as [[cs M]|] eqn:Hadd; [|vm_compute in Hadd; discriminate].
  exists cs, M. split; [reflexivity|].
  destruct (solveLinearSystem
              (system_matrix
                 (coefficients Example.rational_matrix
                    (map totalOutput Example.rational_commodities))
                 (length (map totalOutput Example.rational_commodities))
                 Example.rational_rate)
              (unit_labor (map laborInput Example.rational_commodities)
                 (map totalOutput Example.rational_commodities) (Q2Qc 1)))
    as [P|] eqn:Hsolve; [|vm_compute in Hsolve; discriminate].
  destruct (solveLinearSystem
              (system_matrix (coefficients M (map totalOutput cs))
                 (length (map totalOutput cs)) Example.rational_rate)
              (unit_labor (map laborInput cs) (map totalOutput cs) (Q2Qc 1)))
    as [P'|] eqn:Hsolve'.
  - destruct (@add_commodity_keeps_prices Qc Rational.number rational_exact
                Example.rational_commodities cs Example.rational_matrix M
                Example.rational_rate (Q2Qc 1) P P' 1)
      as [H1 [H2 [H3 _]]].
    + reflexivity.
    + split; [reflexivity | repeat constructor].
    + exact Hadd.
    + exact Hsolve.
    + exact Hsolve'.
    + rewrite H1, H2. apply H3. lia.
  - vm_compute in Hadd. inversion Hadd; subst cs M.
    vm_compute in Hsolve'. discriminate.
Defined.

(** * What the memo hands to the views *)

(** X14: on a dimension-consistent snapshot the prices that [metrics] holds
    are the solver's vector, one price per commodity, or the empty vector when
    the solver returns [null]; and [aggregates] and [getCostBreakdown] return
    [null] exactly when the solver did or there is no commodity. *)
Theorem metrics_prices_per_commodity
    (F : Type) (N : Number F) (Q : MathSqrt F)
    (commodities : list Commodity) (matrix : list (list F)) (r w : F) :
  let X := map totalOutput commodities in
  let L := map laborInput commodities in
  let m := metrics commodities matrix r w in
  let solved :=
    solveLinearSystem (system_matrix (coefficients matrix X) (length X) r)
      (unit_labor L X w) in
  square (length commodities) matrix ->
  (forall P, solved = Some P ->
     metrics_prices m = P /\ length P = length commodities) /\
  (solved = None -> metrics_prices m = []) /\
  (aggregates m commodities matrix r = None <-> solved = None \/ commodities = []) /\
  (forall idx,
     getCostBreakdown m commodities matrix r idx = None
     <-> solved = None \/ commodities = []).
Proof.
  intros X L m solved _.
  assert (Hprices : metrics_prices m
                    = match solved with Some P => P | None => [] end).
  { unfold m, metrics, calculateSraffianPrices. simpl. fold X. fold L. fold solved.
    destruct solved; reflexivity. }
  assert (Hlen : forall P, solved = Some P -> length P = length commodities).
  { intros P HP. apply solve_some_length in HP. rewrite HP.
    rewrite (proj1 (system_matrix_square _ _ _)). unfold X. apply length_map. }
  assert (Hnull : Nat.eqb (length (metrics_prices m)) 0 = true
                  <-> solved = None \/ commodities = []).
  { rewrite Hprices. destruct solved as [P|] eqn:Hs.
    - rewrite (Hlen P eq_refl). rewrite Nat.eqb_eq. split.
      + intros H0. right. now apply length_zero_iff_nil.
      + intros [H|H]; [discriminate | now rewrite H].
    - split; [now left | reflexivity]. }
  split; [|split; [|split]].
  - intros P HP. split; [now rewrite Hprices, HP | now apply Hlen].
  - intros HP. now rewrite Hprices, HP.
  - rewrite <- Hnull. unfold aggregates.
    destruct (Nat.eqb (length (metrics_prices m)) 0); split;
      congruence.
  - intros idx. rewrite <- Hnull. unfold getCostBreakdown.
    destruct (Nat.eqb (length (metrics_prices m)) 0); split;
      congruence.
Qed.

Lemma metrics_prices_per_commodity_witness :
  length (metrics_prices
            (metrics Example.INITIAL_COMMODITIES Example.INITIAL_MATRIX
               Example.initial_rate 1%float)) = 2.
Proof.
  destruct (@metrics_prices_per_commodity float Binary64.number Binary64.math_sqrt
              Example.INITIAL_COMMODITIES Example.INITIAL_MATRIX
              Example.initial_rate 1%float) as [H _].
  - split; [reflexivity | repeat constructor].
  - destruct (solveLinearSystem
                (system_matrix
                   (coefficients Example.INITIAL_MATRIX
                      (map totalOutput Example.INITIAL_COMMODITIES))
                   (length (map totalOutput Example.INITIAL_COMMODITIES))
                   Example.initial_rate)
                (unit_labor (map laborInput Example.INITIAL_COMMODITIES)
                   (map totalOutput Example.INITIAL_COMMODITIES) 1%float))
      as [P|] eqn:Hsolve; [|vm_compute in Hsolve; discriminate].
    destruct (H P eq_refl) as [HP Hlen]. rewrite HP. exact Hlen.
Defined.

(** X15: in exact arithmetic, when the solver returns prices, the cost
    breakdown of a commodity whose total output is positive adds up:
    constant capital plus profit plus wage cost is the price. *)
Theorem cost_breakdown_adds_up
    (F : Type) (N : Number F) (E : Exact N)
    (commodities : list Commodity) (matrix : list (list F)) (r w : F)
    (m : ComputedMetrics) (P : list F) (idx : nat) :
  let totalOutputs := map totalOutput commodities in
  let laborVector := map laborInput commodities in
  square (length commodities) matrix ->
  solveLinearSystem
    (system_matrix (coefficients matrix totalOutputs) (length totalOutputs) r)
    (unit_labor laborVector totalOutputs w) = Some P ->
  metrics_prices m = P -> metrics_wage m = w ->
  idx < length commodities ->
  gtb (totalOutput (commodity commodities idx)) 0%num = true ->
  exists c,
    getCostBreakdown m commodities matrix r idx = Some c /\
    price c = get P idx /\
    (constantCapitalValue c + profit c + wageCost c)%num = price c.
Proof.
  intros totalOutputs laborVector _ Hsolve HP Hw Hidx Hpos.
  destruct (@cost_breakdown_identity_exact F N E commodities matrix r w m P idx
              Hsolve HP Hw Hidx Hpos) as [c [Hc Hsum]].
  exists c. split; [exact Hc|]. split; [|exact Hsum].
  unfold getCostBreakdown in Hc.
  destruct (Nat.eqb (length (metrics_prices m)) 0); [discriminate|].
  inversion Hc. simpl. now rewrite HP.
Qed.

Lemma cost_breakdown_adds_up_witness :
  exists c,
    getCostBreakdown Example.rational_metrics Example.rational_commodities
      Example.rational_matrix Example.rational_rate 0 = Some c /\
    (constantCapitalValue c + profit c + wageCost c)%num = price c.
Proof.
  destruct (solveLinearSystem
              (system_matrix
                 (coefficients Example.rational_matrix
                    (map totalOutput Example.rational_commodities))
                 (length (map totalOutput Example.rational_commodities))
                 Example.rational_rate)
              (unit_labor (map laborInput Example.rational_commodities)
                 (map totalOutput Example.rational_commodities) (Q2Qc 1)))
    as [P|] eqn:Hsolve; [|vm_compute in Hsolve; discriminate].
  destruct (@cost_breakdown_adds_up Qc Rational.number rational_exact
              Example.rational_commodities Example.rational_matrix
              Example.rational_rate (Q2Qc 1) Example.rational_metrics P 0)
    as [c [Hc [_ Hsum]]].
  - split; [reflexivity | repeat constructor].
  - exact Hsolve.
  - unfold Example.rational_metrics, calculateSraffianPrices.
    cbv zeta. rewrite Hsolve. reflexivity.
  - reflexivity.
  - simpl; lia.
  - reflexivity.
  - exists c. split; [exact Hc | exact Hsum].
Defined.
